(** * Confidence intervals of [functions.py]

    A shallow embedding of the three functions of [src/functions.py]:
    [t_confidence_interval], [proportion_conf_interval] and
    [diff_proportion_conf_interval].

    Numbers.  Python [float] and numpy [float64] values are IEEE doubles.
    They are modelled by the type [float64] below: a real number, an
    infinity or NaN.  Arithmetic is exact on the reals (rounding,
    overflow and the sign of zero are not modelled); what is modelled is
    where the IEEE special values appear (0/0, the square root of a
    negative number, ...) and where Python raises instead
    ([ZeroDivisionError] on [/] between Python scalars).

    Library code.  [np.mean], [np.std], [np.sqrt], [norm.ppf] and
    [t.interval] are not part of the repository.  Their wrappers are
    written out here after numpy and scipy ([rv_continuous.ppf] and
    [rv_continuous.interval]); the two special functions they end in,
    the standard normal quantile [ndtri] and the standard Student
    quantile [stdtrit], are parameters. *)

From Stdlib Require Import Reals Lra List Bool ZArith Lia.
From Stdlib Require Import Permutation.
Import ListNotations.

Open Scope R_scope.

(** ** Values and errors *)

Inductive float64 : Type :=
| Num (r : R)
| Inf (neg : bool)
| NaN.

(** The Python exceptions the three functions can end in. *)
Inductive exn : Type :=
| ZeroDivisionError
| IndexError
| ValueError.

Inductive result (A : Type) : Type :=
| Ok (a : A)
| Raise (e : exn).

Arguments Ok {A} a.
Arguments Raise {A} e.

Definition bind {A B : Type} (m : result A) (k : A -> result B) : result B :=
  match m with
  | Ok a => k a
  | Raise e => Raise e
  end.

Notation "x <- m ;; k" := (bind m (fun x => k))
  (at level 61, m at next level, right associativity).

Definition raises {A : Type} (m : result A) : Prop :=
  exists e, m = Raise e.

(** ** Comparisons on the reals as booleans *)

Definition Rltb (a b : R) : bool := if Rlt_dec a b then true else false.
Definition Reqb (a b : R) : bool := if Req_dec_T a b then true else false.

(** ** IEEE arithmetic on [float64], rounding aside *)

Definition np_neg (a : float64) : float64 :=
  match a with
  | Num r => Num (- r)
  | Inf s => Inf (negb s)
  | NaN => NaN
  end.

Definition np_add (a b : float64) : float64 :=
  match a, b with
  | Num x, Num y => Num (x + y)
  | Num _, Inf s => Inf s
  | Inf s, Num _ => Inf s
  | Inf s, Inf s' => if Bool.eqb s s' then Inf s else NaN
  | _, _ => NaN
  end.

Definition np_sub (a b : float64) : float64 := np_add a (np_neg b).

Definition np_mul (a b : float64) : float64 :=
  match a, b with
  | Num x, Num y => Num (x * y)
  | Num x, Inf s => if Reqb x 0 then NaN else Inf (xorb s (Rltb x 0))
  | Inf s, Num y => if Reqb y 0 then NaN else Inf (xorb s (Rltb y 0))
  | Inf s, Inf s' => Inf (xorb s s')
  | _, _ => NaN
  end.

(** numpy's division: no exception, a zero divisor gives an infinity or
    NaN (with a warning). *)
Definition np_div (a b : float64) : float64 :=
  match a, b with
  | Num x, Num y =>
      if Reqb y 0 then (if Reqb x 0 then NaN else Inf (Rltb x 0))
      else Num (x / y)
  | Num _, Inf _ => Num 0
  | Inf s, Num y => Inf (xorb s (Rltb y 0))
  | _, _ => NaN
  end.

(** [np.sqrt]: NaN below zero (with a warning), no exception. *)
Definition np_sqrt (a : float64) : float64 :=
  match a with
  | Num x => if Rltb x 0 then NaN else Num (sqrt x)
  | Inf false => Inf false
  | _ => NaN
  end.

(** [a > 0] and [a == a] on doubles. *)
Definition np_pos (a : float64) : bool :=
  match a with
  | Num x => Rltb 0 x
  | Inf s => negb s
  | NaN => false
  end.

Definition np_not_nan (a : float64) : bool :=
  match a with
  | NaN => false
  | _ => true
  end.

(** [a <= b] on doubles: false as soon as one side is NaN. *)
Definition np_le (a b : float64) : Prop :=
  match a, b with
  | Num x, Num y => x <= y
  | Inf true, Num _ => True
  | Inf true, Inf _ => True
  | Num _, Inf false => True
  | Inf false, Inf false => True
  | _, _ => False
  end.

(** Python's true division between Python scalars: it raises on a zero
    divisor. *)
Definition py_div (a b : R) : result R :=
  if Reqb b 0 then Raise ZeroDivisionError else Ok (a / b).

(** Python list indexing with a non-negative constant index. *)
Definition py_index {A : Type} (l : list A) (i : nat) : result A :=
  match nth_error l i with
  | Some a => Ok a
  | None => Raise IndexError
  end.

(** ** numpy reductions *)

(** [np.asarray] on a sequence of finite Python numbers. *)
Definition np_asarray (data : list R) : list float64 := map Num data.

Fixpoint np_sum (arr : list float64) : float64 :=
  match arr with
  | [] => Num 0
  | x :: rest => np_add x (np_sum rest)
  end.

(** [np.mean]: the sum over the count; 0/0 = NaN on an empty array. *)
Definition np_mean (data : list R) : float64 :=
  let arr := np_asarray data in
  np_div (np_sum arr) (Num (INR (length arr))).

(** [np.var(data, ddof)]: squared deviations from the mean, summed and
    divided by [max (n - ddof) 0]. *)
Definition np_var (data : list R) (ddof : nat) : float64 :=
  let arr := np_asarray data in
  let arrmean := np_div (np_sum arr) (Num (INR (length arr))) in
  let x := map (fun v => np_sub v arrmean) arr in
  let x2 := map (fun v => np_mul v v) x in
  let rcount := Z.max (Z.of_nat (length arr) - Z.of_nat ddof) 0 in
  np_div (np_sum x2) (Num (IZR rcount)).

Definition np_std (data : list R) (ddof : nat) : float64 :=
  np_sqrt (np_var data ddof).

(** ** scipy: [rv_continuous.ppf] and [rv_continuous.interval]

    [ppf] answers NaN unless the shape arguments pass [_argcheck], the
    scale is strictly positive and the location is not NaN.  For the
    normal and the Student distribution the support is the whole line, so
    q = 0 and q = 1 give [-inf * scale + loc] and [inf * scale + loc]. *)

Definition rv_ppf (_ppf : R -> R) (argcheck : bool)
    (q : R) (loc scale : float64) : float64 :=
  let cond0 := argcheck && np_pos scale && np_not_nan loc in
  if cond0 && (Rltb 0 q && Rltb q 1) then
    np_add (np_mul (Num (_ppf q)) scale) loc
  else if cond0 && Reqb q 0 then
    np_add (np_mul (Inf true) scale) loc
  else if cond0 && Reqb q 1 then
    np_add (np_mul (Inf false) scale) loc
  else NaN.

Definition rv_interval (_ppf : R -> R) (argcheck : bool)
    (confidence : R) (loc scale : float64) : result (float64 * float64) :=
  if Rltb 1 confidence || Rltb confidence 0 then Raise ValueError
  else
    let q1 := (1 - confidence) / 2 in
    let q2 := (1 + confidence) / 2 in
    let a := rv_ppf _ppf argcheck q1 loc scale in
    let b := rv_ppf _ppf argcheck q2 loc scale in
    Ok (a, b).

Section Functions.

(** [scipy.special.ndtri]: the standard normal quantile on (0,1). *)
Variable ndtri : R -> R.
(** [scipy.special.stdtrit df q]: the standard Student quantile. *)
Variable stdtrit : R -> R -> R.

(** [norm.ppf(q)]: location 0, scale 1, no shape argument. *)
Definition norm_ppf (q : R) : float64 :=
  rv_ppf ndtri true q (Num 0) (Num 1).

(** [t.interval(confidence, df, loc, scale)]; [_argcheck] is [df > 0]. *)
Definition t_interval (confidence : R) (df : Z) (loc scale : float64)
  : result (float64 * float64) :=
  rv_interval (stdtrit (IZR df)) (Rltb 0 (IZR df)) confidence loc scale.

(** ** The three functions *)

Definition t_confidence_interval (data : list R) (alpha : R)
  : result (float64 * float64 * float64) :=
  let n := length data in
  let x_mean := np_mean data in
  let x_std := np_std data 1 in
  let df := (Z.of_nat n - 1)%Z in
  bounds <- t_interval (1 - alpha) df x_mean
              (np_div x_std (np_sqrt (Num (INR n)))) ;;
  Ok (x_mean, fst bounds, snd bounds).

Definition proportion_conf_interval (x_success n_total : Z) (alpha : R)
  : result (float64 * float64 * float64) :=
  p_hat <- py_div (IZR x_success) (IZR n_total) ;;
  let z_crit := norm_ppf (1 - alpha / 2) in
  v <- py_div (p_hat * (1 - p_hat)) (IZR n_total) ;;
  let se := np_sqrt (Num v) in
  let lower := np_sub (Num p_hat) (np_mul z_crit se) in
  let upper := np_add (Num p_hat) (np_mul z_crit se) in
  Ok (Num p_hat, lower, upper).

Definition diff_proportion_conf_interval (x_p : list R) (n : list Z)
    (gamma : R) : result (float64 * float64 * float64) :=
  let alpha := 1 - gamma in
  p1 <- py_index x_p 1 ;;
  p0 <- py_index x_p 0 ;;
  let diff := p1 - p0 in
  n0 <- py_index n 0 ;;
  v0 <- py_div (p0 * (1 - p0)) (IZR n0) ;;
  n1 <- py_index n 1 ;;
  v1 <- py_div (p1 * (1 - p1)) (IZR n1) ;;
  let se := np_sqrt (Num (v0 + v1)) in
  let z_crit := norm_ppf (1 - alpha / 2) in
  let lower_bound := np_sub (Num diff) (np_mul z_crit se) in
  let upper_bound := np_add (Num diff) (np_mul z_crit se) in
  Ok (Num diff, lower_bound, upper_bound).

End Functions.

(** ** The statistics of the specification

    The sample mean, the sample standard deviation with Bessel's
    correction and the standard error, written from the words of the
    specification; they are compared with what the numpy calls of the
    code compute. *)

Definition Rsum (l : list R) : R := fold_right Rplus 0 l.

Definition sample_mean (data : list R) : R :=
  Rsum data / INR (length data).

Definition sum_sq_dev (data : list R) : R :=
  Rsum (map (fun x => Rsqr (x - sample_mean data)) data).

Definition sample_std (data : list R) : R :=
  sqrt (sum_sq_dev data / (INR (length data) - 1)).

Definition std_error (data : list R) : R :=
  sample_std data / sqrt (INR (length data)).

(** The two-sided critical values at confidence [1 - alpha]. *)
Definition t_crit (stdtrit : R -> R -> R) (n : nat) (alpha : R) : R :=
  stdtrit (INR n - 1) (1 - alpha / 2).

Definition z_crit (ndtri : R -> R) (alpha : R) : R :=
  ndtri (1 - alpha / 2).

(** The standard errors of a proportion and of a difference of two. *)
Definition prop_se (p n : R) : R := sqrt (p * (1 - p) / n).

Definition diff_se (pA pB nA nB : R) : R :=
  sqrt (pA * (1 - pA) / nA + pB * (1 - pB) / nB).

(** What is used of a quantile function of a distribution symmetric
    about 0: it is odd about 1/2 and non-negative from 1/2 on. *)
Definition quantile_symmetric (f : R -> R) : Prop :=
  forall q, 0 < q < 1 -> f (1 - q) = - f q.

Definition quantile_upper_nonneg (f : R -> R) : Prop :=
  forall q, 1 / 2 <= q < 1 -> 0 <= f q.

(** A function with both properties, with which the assumptions on
    [ndtri] and [stdtrit] are instantiated in the examples: the quantile
    function of the uniform distribution on [-2, 2]. *)
Definition uniform_quantile (q : R) : R := 4 * (q - 1 / 2).

Definition uniform_quantile_df (df q : R) : R := uniform_quantile q.

(** The invariant of a returned triple: the bounds enclose the point
    estimate and lie at the same distance from it.  Comparisons and
    differences are those of doubles, so a NaN bound breaks it. *)
Definition interval_invariant (r : result (float64 * float64 * float64)) : Prop :=
  exists point lower upper,
    r = Ok (point, lower, upper)
    /\ np_le lower point /\ np_le point upper
    /\ np_sub upper point = np_sub point lower.

(** A quantile function is increasing on (0,1). *)
Definition quantile_increasing (f : R -> R) : Prop :=
  forall q1 q2, 0 < q1 -> q1 <= q2 -> q2 < 1 -> f q1 <= f q2.

(** The same change applied to the three components of a returned
    triple; an exception is left as it is. *)
Definition triple_map (f : float64 -> float64)
    (r : result (float64 * float64 * float64))
  : result (float64 * float64 * float64) :=
  match r with
  | Ok (point, lower, upper) => Ok (f point, f lower, f upper)
  | Raise e => Raise e
  end.

(** Two returned triples with the same point estimate, the interval of
    the first inside the interval of the second. *)
Definition interval_within (r1 r2 : result (float64 * float64 * float64)) : Prop :=
  exists point lower1 upper1 lower2 upper2,
    r1 = Ok (Num point, Num lower1, Num upper1)
    /\ r2 = Ok (Num point, Num lower2, Num upper2)
    /\ lower2 <= lower1 /\ upper1 <= upper2.

(** ** Basic facts *)

Lemma Rltb_true (a b : R) : a < b -> Rltb a b = true.
Proof. intros H. unfold Rltb. destruct (Rlt_dec a b); [reflexivity | contradiction]. Qed.

Lemma Rltb_false (a b : R) : b <= a -> Rltb a b = false.
Proof. intros H. unfold Rltb. destruct (Rlt_dec a b); [lra | reflexivity]. Qed.

Lemma Reqb_true (a b : R) : a = b -> Reqb a b = true.
Proof. intros H. unfold Reqb. destruct (Req_dec_T a b); [reflexivity | contradiction]. Qed.

Lemma Reqb_false (a b : R) : a <> b -> Reqb a b = false.
Proof. intros H. unfold Reqb. destruct (Req_dec_T a b); [contradiction | reflexivity]. Qed.

Lemma np_mul_nan_r (a : float64) : np_mul a NaN = NaN.
Proof. destruct a; reflexivity. Qed.

Lemma np_add_nan_r (a : float64) : np_add a NaN = NaN.
Proof. destruct a; reflexivity. Qed.

Lemma py_div_ok (a b : R) : b <> 0 -> py_div a b = Ok (a / b).
Proof. intros H. unfold py_div. now rewrite Reqb_false. Qed.

Lemma py_div_zero (a : R) : py_div a 0 = Raise ZeroDivisionError.
Proof. unfold py_div. now rewrite Reqb_true. Qed.

Lemma uniform_quantile_symmetric : quantile_symmetric uniform_quantile.
Proof. intros q _. unfold uniform_quantile. lra. Qed.

Lemma uniform_quantile_upper_nonneg : quantile_upper_nonneg uniform_quantile.
Proof. intros q Hq. unfold uniform_quantile. lra. Qed.

(** ** numpy's mean and standard deviation against the specification *)

Lemma np_sum_asarray (l : list R) : np_sum (np_asarray l) = Num (Rsum l).
Proof.
  unfold np_asarray.
  induction l as [|x l IH]; cbn [map np_sum].
  - reflexivity.
  - rewrite IH. reflexivity.
Qed.

Lemma length_asarray (l : list R) : length (np_asarray l) = length l.
Proof. apply length_map. Qed.

Lemma INR_length_pos (l : list R) : (1 <= length l)%nat -> 0 < INR (length l).
Proof. intros H. apply lt_0_INR. lia. Qed.

Lemma np_mean_spec (data : list R) :
  (1 <= length data)%nat -> np_mean data = Num (sample_mean data).
Proof.
  intros Hn. unfold np_mean, sample_mean.
  rewrite np_sum_asarray, length_asarray. simpl.
  rewrite Reqb_false; [reflexivity|].
  pose proof (INR_length_pos data Hn). lra.
Qed.

Lemma np_mean_empty : np_mean [] = NaN.
Proof. unfold np_mean. simpl. now rewrite !Reqb_true. Qed.

Lemma np_sq_dev (m : R) (l : list R) :
  np_sum (map (fun v => np_mul v v)
            (map (fun v => np_sub v (Num m)) (np_asarray l)))
  = Num (Rsum (map (fun x => Rsqr (x - m)) l)).
Proof.
  unfold np_asarray.
  induction l as [|x l IH]; cbn [map np_sum].
  - reflexivity.
  - rewrite IH. simpl. reflexivity.
Qed.

Lemma Rsum_sq_nonneg (m : R) (l : list R) :
  0 <= Rsum (map (fun x => Rsqr (x - m)) l).
Proof.
  induction l as [|x l IH]; simpl.
  - lra.
  - pose proof (Rle_0_sqr (x - m)). lra.
Qed.

Lemma sum_sq_dev_nonneg (data : list R) : 0 <= sum_sq_dev data.
Proof. apply Rsum_sq_nonneg. Qed.

Lemma np_var_spec (data : list R) :
  (2 <= length data)%nat ->
  np_var data 1 = Num (sum_sq_dev data / (INR (length data) - 1)).
Proof.
  intros Hn. unfold np_var.
  rewrite np_sum_asarray, length_asarray. simpl np_div at 2.
  pose proof (INR_length_pos data ltac:(lia)) as Hpos.
  rewrite Reqb_false by lra.
  rewrite np_sq_dev.
  replace (IZR (Z.max (Z.of_nat (length data) - Z.of_nat 1) 0))
    with (INR (length data) - 1).
  - assert (H1 : 1 < INR (length data)).
    { change 1 with (INR 1). apply lt_INR. lia. }
    simpl. rewrite Reqb_false by lra. reflexivity.
  - rewrite Z.max_l by lia. rewrite minus_IZR, <- INR_IZR_INZ. simpl. reflexivity.
Qed.

Lemma sample_var_nonneg (data : list R) :
  (2 <= length data)%nat -> 0 <= sum_sq_dev data / (INR (length data) - 1).
Proof.
  intros Hn.
  assert (H1 : 1 < INR (length data)).
  { change 1 with (INR 1). apply lt_INR. lia. }
  apply Rmult_le_pos.
  - apply sum_sq_dev_nonneg.
  - left. apply Rinv_0_lt_compat. lra.
Qed.

Lemma np_std_spec (data : list R) :
  (2 <= length data)%nat -> np_std data 1 = Num (sample_std data).
Proof.
  intros Hn. unfold np_std. rewrite np_var_spec by assumption.
  simpl. rewrite Rltb_false by (apply sample_var_nonneg; assumption).
  reflexivity.
Qed.

(** With fewer than two points the variance is 0/0. *)
Lemma np_std_short (data : list R) :
  (length data < 2)%nat -> np_std data 1 = NaN.
Proof.
  intros Hn. destruct data as [|x [|y rest]]; simpl in Hn; try lia.
  - unfold np_std, np_var. simpl. now rewrite !Reqb_true.
  - unfold np_std, np_var. simpl.
    rewrite (Reqb_false 1 0) by lra. simpl.
    rewrite (Reqb_true (IZR (Z.max 0 0)) 0) by reflexivity.
    rewrite Reqb_true; [reflexivity | field].
Qed.

Lemma sqrt_INR_pos (n : nat) : (1 <= n)%nat -> 0 < sqrt (INR n).
Proof. intros H. apply sqrt_lt_R0. apply lt_0_INR. lia. Qed.

(** The scale handed to [t.interval] is the standard error. *)
Lemma scale_spec (data : list R) :
  (2 <= length data)%nat ->
  np_div (np_std data 1) (np_sqrt (Num (INR (length data))))
  = Num (std_error data).
Proof.
  intros Hn. rewrite np_std_spec by assumption. simpl.
  rewrite Rltb_false by apply pos_INR. simpl.
  pose proof (sqrt_INR_pos (length data) ltac:(lia)).
  rewrite Reqb_false by lra. reflexivity.
Qed.

Lemma scale_short (data : list R) :
  (length data < 2)%nat ->
  np_div (np_std data 1) (np_sqrt (Num (INR (length data)))) = NaN.
Proof. intros Hn. rewrite np_std_short by assumption. reflexivity. Qed.

(** ** scipy's wrappers *)

Lemma rv_ppf_bad_scale (f : R -> R) (c : bool) (q : R) (loc scale : float64) :
  np_pos scale = false -> rv_ppf f c q loc scale = NaN.
Proof.
  intros H. unfold rv_ppf. rewrite H.
  rewrite andb_false_r. reflexivity.
Qed.

Lemma rv_ppf_inside (f : R -> R) (q loc scale : R) :
  0 < scale -> 0 < q < 1 ->
  rv_ppf f true q (Num loc) (Num scale) = Num (f q * scale + loc).
Proof.
  intros Hs [Hq0 Hq1]. unfold rv_ppf. simpl.
  rewrite !Rltb_true by assumption. reflexivity.
Qed.

Lemma rv_interval_ok (f : R -> R) (c : bool) (conf : R) (loc scale : float64) :
  0 <= conf <= 1 ->
  rv_interval f c conf loc scale
  = Ok (rv_ppf f c ((1 - conf) / 2) loc scale,
        rv_ppf f c ((1 + conf) / 2) loc scale).
Proof.
  intros [H0 H1]. unfold rv_interval.
  rewrite !Rltb_false by assumption. reflexivity.
Qed.

Lemma norm_ppf_inside (ndtri : R -> R) (q : R) :
  0 < q < 1 -> norm_ppf ndtri q = Num (ndtri q).
Proof.
  intros Hq. unfold norm_ppf. rewrite rv_ppf_inside by (lra || assumption).
  f_equal. ring.
Qed.

Lemma norm_ppf_crit (ndtri : R -> R) (alpha : R) :
  0 < alpha < 1 -> norm_ppf ndtri (1 - alpha / 2) = Num (z_crit ndtri alpha).
Proof. intros H. unfold z_crit. apply norm_ppf_inside. lra. Qed.

(** The code's call of [t.interval] on a sample with a positive standard
    error. *)
Lemma t_interval_spec (stdtrit : R -> R -> R) (n : nat) (alpha loc se : R) :
  (2 <= n)%nat -> 0 < alpha < 1 -> 0 < se ->
  t_interval stdtrit (1 - alpha) (Z.of_nat n - 1) (Num loc) (Num se)
  = Ok (Num (stdtrit (INR n - 1) (alpha / 2) * se + loc),
        Num (stdtrit (INR n - 1) (1 - alpha / 2) * se + loc)).
Proof.
  intros Hn Ha Hse. unfold t_interval.
  rewrite rv_interval_ok by lra.
  assert (Hdf : IZR (Z.of_nat n - 1) = INR n - 1).
  { rewrite minus_IZR, <- INR_IZR_INZ. reflexivity. }
  assert (H1 : 1 < INR n).
  { change 1 with (INR 1). apply lt_INR. lia. }
  rewrite Hdf, Rltb_true by lra.
  replace ((1 - (1 - alpha)) / 2) with (alpha / 2) by lra.
  replace ((1 + (1 - alpha)) / 2) with (1 - alpha / 2) by lra.
  rewrite !rv_ppf_inside by lra.
  reflexivity.
Qed.

(** The same call when the scale is not strictly positive. *)
Lemma t_interval_bad_scale (stdtrit : R -> R -> R) (df : Z) (alpha : R)
    (loc scale : float64) :
  0 <= alpha <= 1 -> np_pos scale = false ->
  t_interval stdtrit (1 - alpha) df loc scale = Ok (NaN, NaN).
Proof.
  intros Ha Hs. unfold t_interval.
  rewrite rv_interval_ok by lra.
  rewrite !rv_ppf_bad_scale by assumption. reflexivity.
Qed.

(** ** Constant samples *)

Lemma Rsum_repeat (c : R) (n : nat) : Rsum (repeat c n) = INR n * c.
Proof.
  induction n as [|n IH].
  - simpl. ring.
  - change (Rsum (repeat c (S n))) with (c + Rsum (repeat c n)).
    rewrite IH, S_INR. ring.
Qed.

Lemma sample_mean_repeat (c : R) (n : nat) :
  (1 <= n)%nat -> sample_mean (repeat c n) = c.
Proof.
  intros Hn. unfold sample_mean. rewrite Rsum_repeat, repeat_length.
  field. apply not_0_INR. lia.
Qed.

Lemma Rsum_sq_repeat (c : R) (n : nat) :
  Rsum (map (fun x => Rsqr (x - c)) (repeat c n)) = 0.
Proof.
  induction n as [|n IH]; simpl.
  - reflexivity.
  - rewrite IH. unfold Rsqr. ring.
Qed.

Lemma sample_std_repeat (c : R) (n : nat) :
  (1 <= n)%nat -> sample_std (repeat c n) = 0.
Proof.
  intros Hn. unfold sample_std, sum_sq_dev.
  rewrite sample_mean_repeat by assumption.
  rewrite Rsum_sq_repeat. unfold Rdiv. rewrite Rmult_0_l. apply sqrt_0.
Qed.

Lemma std_error_repeat (c : R) (n : nat) :
  (1 <= n)%nat -> std_error (repeat c n) = 0.
Proof.
  intros Hn. unfold std_error. rewrite sample_std_repeat by assumption.
  unfold Rdiv. apply Rmult_0_l.
Qed.

(** What [t_confidence_interval] returns on a constant sample: the scale
    is 0, which [t.interval] does not accept. *)
Lemma t_confidence_interval_repeat (stdtrit : R -> R -> R) (c : R) (n : nat)
    (alpha : R) :
  (2 <= n)%nat -> 0 < alpha < 1 ->
  t_confidence_interval stdtrit (repeat c n) alpha = Ok (Num c, NaN, NaN).
Proof.
  intros Hn Ha. unfold t_confidence_interval.
  assert (Hlen : (2 <= length (repeat c n))%nat) by (rewrite repeat_length; assumption).
  rewrite scale_spec by assumption.
  rewrite np_mean_spec by lia.
  rewrite repeat_length in *.
  rewrite std_error_repeat, sample_mean_repeat by lia.
  rewrite t_interval_bad_scale.
  - reflexivity.
  - lra.
  - simpl. apply Rltb_false. lra.
Qed.

(** What it returns on a sample of fewer than two points. *)
Lemma t_confidence_interval_short (stdtrit : R -> R -> R) (data : list R)
    (alpha : R) :
  (length data < 2)%nat -> 0 < alpha < 1 ->
  t_confidence_interval stdtrit data alpha = Ok (np_mean data, NaN, NaN).
Proof.
  intros Hn Ha. unfold t_confidence_interval.
  rewrite scale_short by assumption.
  rewrite t_interval_bad_scale; [reflexivity | lra | reflexivity].
Qed.

(** What it returns on a sample with a positive standard deviation. *)
Lemma t_confidence_interval_regular (stdtrit : R -> R -> R) (data : list R)
    (alpha : R) :
  (2 <= length data)%nat -> 0 < alpha < 1 -> 0 < sample_std data ->
  t_confidence_interval stdtrit data alpha
  = Ok (Num (sample_mean data),
        Num (stdtrit (INR (length data) - 1) (alpha / 2) * std_error data
             + sample_mean data),
        Num (stdtrit (INR (length data) - 1) (1 - alpha / 2) * std_error data
             + sample_mean data)).
Proof.
  intros Hn Ha Hs. unfold t_confidence_interval.
  rewrite scale_spec by assumption.
  rewrite np_mean_spec by lia.
  rewrite t_interval_spec; try assumption.
  - reflexivity.
  - unfold std_error. apply Rdiv_lt_0_compat; [assumption|].
    apply sqrt_INR_pos. lia.
Qed.

(** ** The two proportion functions, step by step *)

Lemma proportion_conf_interval_eval (ndtri : R -> R) (x n : Z) (alpha : R) :
  n <> 0%Z ->
  proportion_conf_interval ndtri x n alpha
  = let p_hat := IZR x / IZR n in
    let z := norm_ppf ndtri (1 - alpha / 2) in
    let se := np_sqrt (Num (p_hat * (1 - p_hat) / IZR n)) in
    Ok (Num p_hat, np_sub (Num p_hat) (np_mul z se),
        np_add (Num p_hat) (np_mul z se)).
Proof.
  intros Hn. unfold proportion_conf_interval.
  pose proof (not_0_IZR n Hn) as Hn'.
  rewrite py_div_ok by assumption. cbn [bind].
  rewrite py_div_ok by assumption. reflexivity.
Qed.

Lemma proportion_conf_interval_zero (ndtri : R -> R) (x : Z) (alpha : R) :
  proportion_conf_interval ndtri x 0 alpha = Raise ZeroDivisionError.
Proof. unfold proportion_conf_interval. rewrite py_div_zero. reflexivity. Qed.

Lemma proportion_in_unit (x n : Z) :
  (0 <= x <= n)%Z -> (0 < n)%Z -> 0 <= IZR x / IZR n <= 1.
Proof.
  intros [H0 H1] Hn.
  apply IZR_le in H0. apply IZR_le in H1. apply IZR_lt in Hn.
  split.
  - apply Rmult_le_pos; [assumption|]. left. now apply Rinv_0_lt_compat.
  - apply Rmult_le_reg_r with (IZR n); [assumption|].
    unfold Rdiv. rewrite Rmult_assoc, Rinv_l by lra. lra.
Qed.

Lemma variance_term_nonneg (p n : R) :
  0 <= p <= 1 -> 0 < n -> 0 <= p * (1 - p) / n.
Proof.
  intros Hp Hn. apply Rmult_le_pos.
  - apply Rmult_le_pos; lra.
  - left. now apply Rinv_0_lt_compat.
Qed.

Lemma variance_term_neg (p n : R) :
  p < 0 \/ 1 < p -> 0 < n -> p * (1 - p) / n < 0.
Proof.
  intros Hp Hn.
  assert (H : p * (1 - p) < 0) by (destruct Hp; nra).
  pose proof (Rinv_0_lt_compat n Hn).
  unfold Rdiv. nra.
Qed.

Lemma proportion_outside_unit (x n : Z) :
  (0 < n)%Z -> (x < 0 \/ n < x)%Z ->
  IZR x / IZR n < 0 \/ 1 < IZR x / IZR n.
Proof.
  intros Hn Hx. apply IZR_lt in Hn.
  pose proof (Rinv_0_lt_compat _ Hn) as Hi.
  destruct Hx as [Hx | Hx]; apply IZR_lt in Hx.
  - left. unfold Rdiv. nra.
  - right. apply Rmult_lt_reg_r with (IZR n); [assumption|].
    unfold Rdiv. rewrite Rmult_assoc, Rinv_l by lra. lra.
Qed.

(** A valid call of [proportion_conf_interval]. *)
Lemma proportion_conf_interval_valid (ndtri : R -> R) (x n : Z) (alpha : R) :
  (0 <= x <= n)%Z -> (0 < n)%Z -> 0 < alpha < 1 ->
  proportion_conf_interval ndtri x n alpha
  = Ok (Num (IZR x / IZR n),
        Num (IZR x / IZR n
             - z_crit ndtri alpha * prop_se (IZR x / IZR n) (IZR n)),
        Num (IZR x / IZR n
             + z_crit ndtri alpha * prop_se (IZR x / IZR n) (IZR n))).
Proof.
  intros Hx Hn Ha.
  rewrite proportion_conf_interval_eval by lia. cbv zeta.
  rewrite norm_ppf_crit by assumption.
  pose proof (proportion_in_unit x n Hx Hn) as Hp.
  pose proof (variance_term_nonneg _ (IZR n) Hp (IZR_lt _ _ Hn)) as Hv.
  simpl. rewrite Rltb_false by assumption.
  reflexivity.
Qed.

Lemma diff_proportion_conf_interval_eval (ndtri : R -> R) (pA pB : R)
    (nA nB : Z) (gamma : R) :
  nA <> 0%Z -> nB <> 0%Z ->
  diff_proportion_conf_interval ndtri [pA; pB] [nA; nB] gamma
  = let z := norm_ppf ndtri (1 - (1 - gamma) / 2) in
    let se := np_sqrt (Num (pA * (1 - pA) / IZR nA + pB * (1 - pB) / IZR nB)) in
    Ok (Num (pB - pA), np_sub (Num (pB - pA)) (np_mul z se),
        np_add (Num (pB - pA)) (np_mul z se)).
Proof.
  intros HA HB. unfold diff_proportion_conf_interval. cbn [py_index nth_error bind].
  rewrite py_div_ok by (apply not_0_IZR; assumption). cbn [bind].
  rewrite py_div_ok by (apply not_0_IZR; assumption). reflexivity.
Qed.

(** A valid call of [diff_proportion_conf_interval]. *)
Lemma diff_proportion_conf_interval_valid (ndtri : R -> R) (pA pB : R)
    (nA nB : Z) (gamma : R) :
  0 <= pA <= 1 -> 0 <= pB <= 1 -> (0 < nA)%Z -> (0 < nB)%Z -> 0 < gamma < 1 ->
  diff_proportion_conf_interval ndtri [pA; pB] [nA; nB] gamma
  = Ok (Num (pB - pA),
        Num (pB - pA
             - z_crit ndtri (1 - gamma) * diff_se pA pB (IZR nA) (IZR nB)),
        Num (pB - pA
             + z_crit ndtri (1 - gamma) * diff_se pA pB (IZR nA) (IZR nB))).
Proof.
  intros HpA HpB HnA HnB Hg.
  rewrite diff_proportion_conf_interval_eval by lia. cbv zeta.
  rewrite norm_ppf_crit by lra.
  pose proof (variance_term_nonneg pA (IZR nA) HpA (IZR_lt _ _ HnA)).
  pose proof (variance_term_nonneg pB (IZR nB) HpB (IZR_lt _ _ HnB)).
  simpl. rewrite Rltb_false by lra.
  reflexivity.
Qed.

(** The sample standard deviation vanishes on constant samples only. *)
Lemma Rsum_sq_zero (m : R) (l : list R) :
  Rsum (map (fun x => Rsqr (x - m)) l) = 0 -> l = repeat m (length l).
Proof.
  induction l as [|x l IH]; simpl; intros H.
  - reflexivity.
  - pose proof (Rle_0_sqr (x - m)) as Hx.
    pose proof (Rsum_sq_nonneg m l) as Hl.
    assert (H0 : Rsqr (x - m) = 0) by lra.
    apply Rsqr_0_uniq in H0.
    rewrite <- IH by lra.
    f_equal. lra.
Qed.

Lemma sample_std_zero_constant (data : list R) :
  (2 <= length data)%nat -> sample_std data = 0 ->
  data = repeat (sample_mean data) (length data).
Proof.
  intros Hn Hs. unfold sample_std in Hs.
  apply sqrt_eq_0 in Hs; [|apply sample_var_nonneg; assumption].
  apply Rsum_sq_zero.
  assert (H1 : 1 < INR (length data)).
  { change 1 with (INR 1). apply lt_INR. lia. }
  fold (sum_sq_dev data).
  replace (sum_sq_dev data)
    with (sum_sq_dev data / (INR (length data) - 1) * (INR (length data) - 1))
    by (field; lra).
  rewrite Hs. ring.
Qed.

Lemma sample_std_pos_iff (data : list R) :
  (2 <= length data)%nat ->
  (0 < sample_std data <-> ~ exists c, data = repeat c (length data)).
Proof.
  intros Hn. split.
  - intros Hs [c Hc]. rewrite Hc in Hs.
    rewrite sample_std_repeat in Hs by lia. lra.
  - intros Hnc.
    destruct (Rle_lt_or_eq_dec 0 (sample_std data)) as [Hlt | Heq].
    + unfold sample_std. apply sqrt_pos.
    + assumption.
    + exfalso. apply Hnc. exists (sample_mean data).
      apply sample_std_zero_constant; [assumption | now symmetry].
Qed.

(** For a symmetric Student quantile the lower critical value is the
    opposite of the upper one. *)
Lemma stdtrit_lower_tail (stdtrit : R -> R -> R) (n : nat) (alpha : R) :
  (forall df, 0 < df -> quantile_symmetric (stdtrit df)) ->
  (2 <= n)%nat -> 0 < alpha < 1 ->
  stdtrit (INR n - 1) (alpha / 2) = - t_crit stdtrit n alpha.
Proof.
  intros Hsym Hn Ha. unfold t_crit.
  assert (H1 : 1 < INR n).
  { change 1 with (INR 1). apply lt_INR. lia. }
  rewrite <- (Hsym (INR n - 1)) by lra.
  f_equal. lra.
Qed.

Lemma interval_invariant_num (point lower upper : R) :
  lower <= point <= upper -> upper - point = point - lower ->
  interval_invariant (Ok (Num point, Num lower, Num upper)).
Proof.
  intros [Hl Hu] Hsym. exists (Num point), (Num lower), (Num upper).
  repeat split; try assumption.
  simpl. f_equal. lra.
Qed.

Lemma centered_interval_invariant (point half : R) :
  0 <= half ->
  interval_invariant (Ok (Num point, Num (point - half), Num (point + half))).
Proof. intros H. apply interval_invariant_num; lra. Qed.

Lemma sqrt_lower (a v : R) : 0 <= a -> a * a <= v -> a <= sqrt v.
Proof.
  intros Ha Hv. rewrite <- (sqrt_square a) by assumption.
  apply sqrt_le_1_alt. assumption.
Qed.

(** * The claims *)

(** ** MeanInterval: [t_confidence_interval] *)

(** C1 (as amended).  For every sample with at least two elements and a
    positive sample standard deviation [s] (the sample is not constant),
    and every [alpha] in (0,1), [t_confidence_interval] returns
    [(x_bar, x_bar - q * se, x_bar + q * se)], where [x_bar] is the sample
    mean, [s] divides the sum of squared deviations by [n - 1], [q] is the
    Student quantile at [1 - alpha / 2] with [n - 1] degrees of freedom and
    [se = s / sqrt n].  The Student quantile is taken to be odd about
    1/2. *)
Theorem mean_interval_formula (stdtrit : R -> R -> R) (data : list R)
    (alpha : R) :
  (forall df, 0 < df -> quantile_symmetric (stdtrit df)) ->
  (2 <= length data)%nat -> 0 < alpha < 1 -> 0 < sample_std data ->
  let x_bar := sample_mean data in
  let q := t_crit stdtrit (length data) alpha in
  let se := std_error data in
  t_confidence_interval stdtrit data alpha
  = Ok (Num x_bar, Num (x_bar - q * se), Num (x_bar + q * se)).
Proof.
  intros Hsym Hn Ha Hs x_bar q se.
  rewrite t_confidence_interval_regular by assumption.
  assert (Hq : stdtrit (INR (length data) - 1) (alpha / 2) = - q).
  { apply stdtrit_lower_tail; assumption. }
  rewrite Hq. fold x_bar se.
  change (stdtrit (INR (length data) - 1) (1 - alpha / 2)) with q.
  replace (- q * se + x_bar) with (x_bar - q * se) by ring.
  replace (q * se + x_bar) with (x_bar + q * se) by ring.
  reflexivity.
Qed.

Lemma sample_std_1_3 : 0 < sample_std [1; 3].
Proof.
  unfold sample_std, sum_sq_dev, sample_mean. simpl.
  apply sqrt_lt_R0. unfold Rsqr. lra.
Qed.

Lemma mean_interval_formula_witness :
  t_confidence_interval uniform_quantile_df [1; 3] (1 / 20)
  = Ok (Num (sample_mean [1; 3]),
        Num (sample_mean [1; 3]
             - t_crit uniform_quantile_df 2 (1 / 20) * std_error [1; 3]),
        Num (sample_mean [1; 3]
             + t_crit uniform_quantile_df 2 (1 / 20) * std_error [1; 3])).
Proof.
  apply (mean_interval_formula uniform_quantile_df [1; 3] (1 / 20)).
  - intros df _. exact uniform_quantile_symmetric.
  - simpl. lia.
  - lra.
  - exact sample_std_1_3.
Defined.

(** C1 as stated fails on a constant sample: on [3; 3] the bounds are not
    numbers, whatever the Student quantile is. *)
Lemma mean_interval_formula_counterexample :
  ~ exists (stdtrit : R -> R -> R) (lower upper : R),
      t_confidence_interval stdtrit [3; 3] (1 / 20)
      = Ok (Num 3, Num lower, Num upper).
Proof.
  intros (stdtrit & lower & upper & H).
  rewrite (t_confidence_interval_repeat stdtrit 3 2) in H by (lia || lra).
  discriminate H.
Qed.

(** C5 (as amended).  For every sample with fewer than two elements and
    every [alpha] in (0,1), [t_confidence_interval] raises nothing: it
    returns a triple whose two bounds are NaN; the mean is the element
    when there is one and NaN when there is none. *)
Theorem mean_interval_short_sample (stdtrit : R -> R -> R) (data : list R)
    (alpha : R) :
  (length data < 2)%nat -> 0 < alpha < 1 ->
  exists mean,
    t_confidence_interval stdtrit data alpha = Ok (mean, NaN, NaN)
    /\ (forall x, data = [x] -> mean = Num x)
    /\ (data = [] -> mean = NaN).
Proof.
  intros Hn Ha. exists (np_mean data). split; [|split].
  - apply t_confidence_interval_short; assumption.
  - intros x ->. rewrite np_mean_spec by (simpl; lia).
    f_equal. unfold sample_mean. simpl. field.
  - intros ->. apply np_mean_empty.
Qed.

Lemma mean_interval_short_sample_witness :
  exists mean,
    t_confidence_interval uniform_quantile_df [7] (1 / 20) = Ok (mean, NaN, NaN)
    /\ (forall x, [7] = [x] -> mean = Num x)
    /\ ([7] = [] -> mean = NaN).
Proof.
  apply (mean_interval_short_sample uniform_quantile_df [7] (1 / 20)).
  - simpl. lia.
  - lra.
Defined.

(** C5 as stated fails: on the one-element sample [7] no error is
    raised, whatever the Student quantile is. *)
Lemma mean_interval_short_sample_counterexample :
  ~ exists stdtrit : R -> R -> R,
      raises (t_confidence_interval stdtrit [7] (1 / 20)).
Proof.
  intros (stdtrit & e & H).
  rewrite t_confidence_interval_short in H by (simpl; lia || lra).
  discriminate H.
Qed.

(** C8 (as amended).  For every constant sample of [n >= 2] copies of an
    integer [c] with [n * |c| <= 2^53], and every [alpha] in (0,1),
    [t_confidence_interval] returns [c] as the mean and NaN for both
    bounds; on [10; 10; 10; 10] it returns (10, NaN, NaN).

    The bound on [n * |c|] is where doubles agree with the exact
    arithmetic of this file: every partial sum of the sample is an integer
    below 2^53, so the sum, the mean and the deviations are computed
    without rounding and the standard deviation is exactly 0.  On a
    constant sample whose mean is rounded (0.1 three times) the computed
    standard deviation can be a tiny positive number; nothing is stated
    about such samples. *)
Theorem mean_interval_constant (stdtrit : R -> R -> R) (c : Z) (n : nat)
    (alpha : R) :
  (2 <= n)%nat -> (Z.of_nat n * Z.abs c <= 2 ^ 53)%Z -> 0 < alpha < 1 ->
  sample_std (repeat (IZR c) n) = 0
  /\ t_confidence_interval stdtrit (repeat (IZR c) n) alpha
     = Ok (Num (IZR c), NaN, NaN)
  /\ t_confidence_interval stdtrit [10; 10; 10; 10] alpha
     = Ok (Num 10, NaN, NaN).
Proof.
  intros Hn _ Ha. split; [|split].
  - apply sample_std_repeat. lia.
  - apply t_confidence_interval_repeat; assumption.
  - apply (t_confidence_interval_repeat stdtrit 10 4); [lia | assumption].
Qed.

Lemma mean_interval_constant_witness :
  sample_std (repeat (IZR 10) 4) = 0
  /\ t_confidence_interval uniform_quantile_df (repeat (IZR 10) 4) (1 / 20)
     = Ok (Num (IZR 10), NaN, NaN)
  /\ t_confidence_interval uniform_quantile_df [10; 10; 10; 10] (1 / 20)
     = Ok (Num 10, NaN, NaN).
Proof.
  apply (mean_interval_constant uniform_quantile_df 10 4 (1 / 20)).
  - lia.
  - vm_compute. discriminate.
  - lra.
Defined.

(** C8 as stated fails: on [10; 10; 10; 10] the result is not
    (10, 10, 10), whatever the Student quantile and [alpha] in (0,1). *)
Lemma mean_interval_constant_counterexample :
  ~ exists (stdtrit : R -> R -> R) (alpha : R),
      0 < alpha < 1
      /\ t_confidence_interval stdtrit [10; 10; 10; 10] alpha
         = Ok (Num 10, Num 10, Num 10).
Proof.
  intros (stdtrit & alpha & Ha & H).
  rewrite (t_confidence_interval_repeat stdtrit 10 4) in H by (lia || assumption).
  discriminate H.
Qed.

(** ** ProportionInterval: [proportion_conf_interval] *)

(** With a critical value above 3/2 (at [alpha = 0.05] it is about 1.96)
    one success out of two trials gives a lower bound below 0 and an
    upper bound above 1: the bounds are returned as computed. *)
Lemma proportion_conf_interval_unclamped (ndtri : R -> R) (alpha : R) :
  0 < alpha < 1 -> 3 / 2 < z_crit ndtri alpha ->
  exists lower upper,
    proportion_conf_interval ndtri 1 2 alpha
    = Ok (Num (1 / 2), Num lower, Num upper)
    /\ lower < 0 /\ 1 < upper.
Proof.
  intros Ha Hz.
  rewrite proportion_conf_interval_valid by (lia || assumption).
  do 2 eexists. split; [reflexivity|].
  assert (Hse : 35 / 100 <= prop_se (1 / 2) 2).
  { unfold prop_se. apply sqrt_lower; lra. }
  split; nra.
Qed.

(** C2.  For [0 <= x_success <= n_total], [n_total > 0] and [alpha] in
    (0,1), [proportion_conf_interval] returns
    [(p_hat, p_hat - z * se, p_hat + z * se)] with
    [p_hat = x_success / n_total], [z = ndtri (1 - alpha / 2)] and
    [se = sqrt (p_hat * (1 - p_hat) / n_total)]; the bounds are not
    clamped: when [z] exceeds 3/2, one success out of two gives a negative
    lower bound and an upper bound above 1. *)
Theorem proportion_interval_formula (ndtri : R -> R) (x_success n_total : Z)
    (alpha : R) :
  (0 <= x_success <= n_total)%Z -> (0 < n_total)%Z -> 0 < alpha < 1 ->
  let p_hat := IZR x_success / IZR n_total in
  let z := ndtri (1 - alpha / 2) in
  let se := sqrt (p_hat * (1 - p_hat) / IZR n_total) in
  proportion_conf_interval ndtri x_success n_total alpha
  = Ok (Num p_hat, Num (p_hat - z * se), Num (p_hat + z * se))
  /\ (3 / 2 < z ->
      exists lower upper,
        proportion_conf_interval ndtri 1 2 alpha
        = Ok (Num (1 / 2), Num lower, Num upper)
        /\ lower < 0 /\ 1 < upper).
Proof.
  intros Hx Hn Ha p_hat z se. split.
  - apply proportion_conf_interval_valid; assumption.
  - intros Hz. apply proportion_conf_interval_unclamped; assumption.
Qed.

Lemma proportion_interval_formula_witness :
  proportion_conf_interval uniform_quantile 50 100 (1 / 20)
  = Ok (Num (50 / 100),
        Num (50 / 100 - uniform_quantile (1 - 1 / 20 / 2)
                        * sqrt (50 / 100 * (1 - 50 / 100) / 100)),
        Num (50 / 100 + uniform_quantile (1 - 1 / 20 / 2)
                        * sqrt (50 / 100 * (1 - 50 / 100) / 100)))
  /\ (3 / 2 < uniform_quantile (1 - 1 / 20 / 2) ->
      exists lower upper,
        proportion_conf_interval uniform_quantile 1 2 (1 / 20)
        = Ok (Num (1 / 2), Num lower, Num upper)
        /\ lower < 0 /\ 1 < upper).
Proof.
  apply (proportion_interval_formula uniform_quantile 50 100 (1 / 20)).
  - lia.
  - lia.
  - lra.
Defined.

(** C9.  For [n_total > 0] and [alpha] in (0,1), when
    [p_hat = x_success / n_total] is exactly 0 or exactly 1 the standard
    error is 0 and [proportion_conf_interval] returns
    [lower = upper = p_hat]; for [x_success = 0] the lower bound is
    exactly 0. *)
Theorem proportion_interval_degenerate (ndtri : R -> R) (x_success n_total : Z)
    (alpha : R) :
  (0 < n_total)%Z -> 0 < alpha < 1 ->
  IZR x_success / IZR n_total = 0 \/ IZR x_success / IZR n_total = 1 ->
  prop_se (IZR x_success / IZR n_total) (IZR n_total) = 0
  /\ proportion_conf_interval ndtri x_success n_total alpha
     = Ok (Num (IZR x_success / IZR n_total),
           Num (IZR x_success / IZR n_total),
           Num (IZR x_success / IZR n_total))
  /\ (x_success = 0%Z ->
      proportion_conf_interval ndtri x_success n_total alpha
      = Ok (Num 0, Num 0, Num 0)).
Proof.
  intros Hn Ha Hp.
  set (p := IZR x_success / IZR n_total) in *.
  assert (Hv : p * (1 - p) / IZR n_total = 0).
  { unfold Rdiv at 1. destruct Hp as [-> | ->]; ring. }
  assert (Hse : prop_se p (IZR n_total) = 0).
  { unfold prop_se. rewrite Hv. apply sqrt_0. }
  assert (Hres : proportion_conf_interval ndtri x_success n_total alpha
                 = Ok (Num p, Num p, Num p)).
  { rewrite proportion_conf_interval_eval by lia. cbv zeta. fold p.
    rewrite Hv, norm_ppf_crit by assumption. simpl.
    rewrite Rltb_false by lra. rewrite sqrt_0. simpl.
    replace (p + - (z_crit ndtri alpha * 0)) with p by ring.
    replace (p + z_crit ndtri alpha * 0) with p by ring.
    reflexivity. }
  split; [exact Hse | split; [exact Hres|]].
  intros H0. rewrite Hres. unfold p. rewrite H0.
  unfold Rdiv. rewrite Rmult_0_l. reflexivity.
Qed.

Lemma proportion_interval_degenerate_witness :
  prop_se (IZR 0 / IZR 100) (IZR 100) = 0
  /\ proportion_conf_interval uniform_quantile 0 100 (1 / 20)
     = Ok (Num (IZR 0 / IZR 100), Num (IZR 0 / IZR 100), Num (IZR 0 / IZR 100))
  /\ (0%Z = 0%Z ->
      proportion_conf_interval uniform_quantile 0 100 (1 / 20)
      = Ok (Num 0, Num 0, Num 0)).
Proof.
  apply (proportion_interval_degenerate uniform_quantile 0 100 (1 / 20)).
  - lia.
  - lra.
  - left. lra.
Defined.

(** C6 (as amended).  [proportion_conf_interval] fails exactly when
    [n_total = 0], and then with [ZeroDivisionError]; for every other
    input it returns a triple.  When [n_total > 0] and [x_success] is
    negative or exceeds [n_total], the triple holds
    [x_success / n_total] and two NaN bounds. *)
Theorem proportion_interval_errors (ndtri : R -> R) (x_success n_total : Z)
    (alpha : R) :
  (raises (proportion_conf_interval ndtri x_success n_total alpha)
   <-> n_total = 0%Z)
  /\ (n_total = 0%Z ->
      proportion_conf_interval ndtri x_success n_total alpha
      = Raise ZeroDivisionError)
  /\ ((0 < n_total)%Z -> (x_success < 0 \/ n_total < x_success)%Z ->
      proportion_conf_interval ndtri x_success n_total alpha
      = Ok (Num (IZR x_success / IZR n_total), NaN, NaN)).
Proof.
  split; [|split].
  - split.
    + intros [e He]. destruct (Z.eq_dec n_total 0) as [|Hne]; [assumption|].
      rewrite proportion_conf_interval_eval in He by assumption.
      discriminate He.
    + intros ->. exists ZeroDivisionError. apply proportion_conf_interval_zero.
  - intros ->. apply proportion_conf_interval_zero.
  - intros Hn Hx. rewrite proportion_conf_interval_eval by lia. cbv zeta.
    pose proof (variance_term_neg _ (IZR n_total)
                  (proportion_outside_unit _ _ Hn Hx) (IZR_lt _ _ Hn)) as Hv.
    simpl np_sqrt. rewrite Rltb_true by assumption.
    unfold np_sub. rewrite np_mul_nan_r. simpl np_neg. rewrite np_add_nan_r.
    reflexivity.
Qed.

(** C6 as stated fails: five successes out of three trials violate the
    precondition and no error is raised, whatever the normal quantile. *)
Lemma proportion_interval_errors_counterexample :
  ~ exists ndtri : R -> R,
      raises (proportion_conf_interval ndtri 5 3 (1 / 20)).
Proof.
  intros (ndtri & e & H).
  rewrite proportion_conf_interval_eval in H by lia.
  discriminate H.
Qed.

(** ** ProportionDiffInterval: [diff_proportion_conf_interval] *)

(** With a critical value above 3/2, proportions 0.1 and 0.9 on one
    observation each give an upper bound above 1, and in the other order
    a lower bound below -1. *)
Lemma diff_proportion_conf_interval_unclamped (ndtri : R -> R) (gamma : R) :
  0 < gamma < 1 -> 3 / 2 < z_crit ndtri (1 - gamma) ->
  (exists lower upper,
     diff_proportion_conf_interval ndtri [9 / 10; 1 / 10] [1%Z; 1%Z] gamma
     = Ok (Num (1 / 10 - 9 / 10), Num lower, Num upper)
     /\ lower < -1)
  /\ (exists lower upper,
        diff_proportion_conf_interval ndtri [1 / 10; 9 / 10] [1%Z; 1%Z] gamma
        = Ok (Num (9 / 10 - 1 / 10), Num lower, Num upper)
        /\ 1 < upper).
Proof.
  intros Hg Hz.
  assert (Hse1 : 42 / 100 <= diff_se (9 / 10) (1 / 10) 1 1).
  { unfold diff_se. apply sqrt_lower; lra. }
  assert (Hse2 : 42 / 100 <= diff_se (1 / 10) (9 / 10) 1 1).
  { unfold diff_se. apply sqrt_lower; lra. }
  split.
  - rewrite diff_proportion_conf_interval_valid by (lia || lra).
    do 2 eexists. split; [reflexivity | nra].
  - rewrite diff_proportion_conf_interval_valid by (lia || lra).
    do 2 eexists. split; [reflexivity | nra].
Qed.

(** C3.  For proportions [pA], [pB] in [0,1], positive sample sizes and
    [gamma] in (0,1), [diff_proportion_conf_interval] returns
    [(diff, diff - z * se, diff + z * se)] with [diff = pB - pA],
    [se = sqrt (pA (1 - pA) / nA + pB (1 - pB) / nB)] and
    [z = ndtri (1 - (1 - gamma) / 2)]; the bounds are not clamped to
    [-1, 1]: when [z] exceeds 3/2 there are valid inputs with a lower
    bound below -1 and with an upper bound above 1. *)
Theorem proportion_diff_interval_formula (ndtri : R -> R) (pA pB : R)
    (nA nB : Z) (gamma : R) :
  0 <= pA <= 1 -> 0 <= pB <= 1 -> (0 < nA)%Z -> (0 < nB)%Z -> 0 < gamma < 1 ->
  let alpha := 1 - gamma in
  let diff := pB - pA in
  let se := sqrt (pA * (1 - pA) / IZR nA + pB * (1 - pB) / IZR nB) in
  let z := ndtri (1 - alpha / 2) in
  diff_proportion_conf_interval ndtri [pA; pB] [nA; nB] gamma
  = Ok (Num diff, Num (diff - z * se), Num (diff + z * se))
  /\ (3 / 2 < z ->
      (exists lower upper,
         diff_proportion_conf_interval ndtri [9 / 10; 1 / 10] [1%Z; 1%Z] gamma
         = Ok (Num (1 / 10 - 9 / 10), Num lower, Num upper)
         /\ lower < -1)
      /\ (exists lower upper,
            diff_proportion_conf_interval ndtri [1 / 10; 9 / 10] [1%Z; 1%Z] gamma
            = Ok (Num (9 / 10 - 1 / 10), Num lower, Num upper)
            /\ 1 < upper)).
Proof.
  intros HpA HpB HnA HnB Hg alpha diff se z. split.
  - apply diff_proportion_conf_interval_valid; assumption.
  - intros Hz. apply diff_proportion_conf_interval_unclamped; assumption.
Qed.

Lemma proportion_diff_interval_formula_witness :
  diff_proportion_conf_interval uniform_quantile
    [3 / 10; 3 / 10] [100%Z; 100%Z] (95 / 100)
  = Ok (Num (3 / 10 - 3 / 10),
        Num (3 / 10 - 3 / 10
             - uniform_quantile (1 - (1 - 95 / 100) / 2)
               * sqrt (3 / 10 * (1 - 3 / 10) / 100 + 3 / 10 * (1 - 3 / 10) / 100)),
        Num (3 / 10 - 3 / 10
             + uniform_quantile (1 - (1 - 95 / 100) / 2)
               * sqrt (3 / 10 * (1 - 3 / 10) / 100 + 3 / 10 * (1 - 3 / 10) / 100)))
  /\ (3 / 2 < uniform_quantile (1 - (1 - 95 / 100) / 2) ->
      (exists lower upper,
         diff_proportion_conf_interval uniform_quantile
           [9 / 10; 1 / 10] [1%Z; 1%Z] (95 / 100)
         = Ok (Num (1 / 10 - 9 / 10), Num lower, Num upper)
         /\ lower < -1)
      /\ (exists lower upper,
            diff_proportion_conf_interval uniform_quantile
              [1 / 10; 9 / 10] [1%Z; 1%Z] (95 / 100)
            = Ok (Num (9 / 10 - 1 / 10), Num lower, Num upper)
            /\ 1 < upper)).
Proof.
  apply (proportion_diff_interval_formula uniform_quantile
           (3 / 10) (3 / 10) 100 100 (95 / 100)).
  - lra.
  - lra.
  - lia.
  - lia.
  - lra.
Defined.

(** C10.  Swapping the two groups negates the result: for valid inputs,
    if [(pA, pB)], [(nA, nB)] give [(diff, lower, upper)] then
    [(pB, pA)], [(nB, nA)] with the same [gamma] give
    [(- diff, - upper, - lower)], and the standard error is the same. *)
Theorem proportion_diff_interval_swap (ndtri : R -> R) (pA pB : R)
    (nA nB : Z) (gamma : R) :
  0 <= pA <= 1 -> 0 <= pB <= 1 -> (0 < nA)%Z -> (0 < nB)%Z -> 0 < gamma < 1 ->
  diff_se pB pA (IZR nB) (IZR nA) = diff_se pA pB (IZR nA) (IZR nB)
  /\ exists diff lower upper,
       diff_proportion_conf_interval ndtri [pA; pB] [nA; nB] gamma
       = Ok (Num diff, Num lower, Num upper)
       /\ diff_proportion_conf_interval ndtri [pB; pA] [nB; nA] gamma
          = Ok (Num (- diff), Num (- upper), Num (- lower)).
Proof.
  intros HpA HpB HnA HnB Hg.
  assert (Hse : diff_se pB pA (IZR nB) (IZR nA)
                = diff_se pA pB (IZR nA) (IZR nB)).
  { unfold diff_se. f_equal. apply Rplus_comm. }
  split; [exact Hse|].
  rewrite !diff_proportion_conf_interval_valid by assumption.
  rewrite Hse.
  do 3 eexists. split; [reflexivity|].
  do 2 f_equal; [f_equal|]; f_equal; ring.
Qed.

Lemma proportion_diff_interval_swap_witness :
  diff_se (4 / 10) (3 / 10) (IZR 200) (IZR 100)
  = diff_se (3 / 10) (4 / 10) (IZR 100) (IZR 200)
  /\ exists diff lower upper,
       diff_proportion_conf_interval uniform_quantile
         [3 / 10; 4 / 10] [100%Z; 200%Z] (95 / 100)
       = Ok (Num diff, Num lower, Num upper)
       /\ diff_proportion_conf_interval uniform_quantile
            [4 / 10; 3 / 10] [200%Z; 100%Z] (95 / 100)
          = Ok (Num (- diff), Num (- upper), Num (- lower)).
Proof.
  apply (proportion_diff_interval_swap uniform_quantile
           (3 / 10) (4 / 10) 100 200 (95 / 100)).
  - lra.
  - lra.
  - lia.
  - lia.
  - lra.
Defined.

Lemma diff_proportion_conf_interval_zero (ndtri : R -> R) (pA pB : R)
    (nA nB : Z) (gamma : R) :
  nA = 0%Z \/ nB = 0%Z ->
  diff_proportion_conf_interval ndtri [pA; pB] [nA; nB] gamma
  = Raise ZeroDivisionError.
Proof.
  intros H. unfold diff_proportion_conf_interval.
  cbn [py_index nth_error bind].
  destruct (Z.eq_dec nA 0) as [-> | HA].
  - rewrite py_div_zero. reflexivity.
  - destruct H as [H | ->]; [contradiction|].
    rewrite py_div_ok by (apply not_0_IZR; assumption). cbn [bind].
    rewrite py_div_zero. reflexivity.
Qed.

(** C7 (as amended).  On a pair of proportions and a pair of sample
    sizes, [diff_proportion_conf_interval] fails exactly when [nA = 0] or
    [nB = 0], and then with [ZeroDivisionError]; a proportion outside
    [0,1] does not make it fail: with positive sample sizes and a negative
    variance term it returns [pB - pA] and two NaN bounds. *)
Theorem proportion_diff_interval_errors (ndtri : R -> R) (pA pB : R)
    (nA nB : Z) (gamma : R) :
  (raises (diff_proportion_conf_interval ndtri [pA; pB] [nA; nB] gamma)
   <-> nA = 0%Z \/ nB = 0%Z)
  /\ (nA = 0%Z \/ nB = 0%Z ->
      diff_proportion_conf_interval ndtri [pA; pB] [nA; nB] gamma
      = Raise ZeroDivisionError)
  /\ ((0 < nA)%Z -> (0 < nB)%Z ->
      pA * (1 - pA) / IZR nA + pB * (1 - pB) / IZR nB < 0 ->
      diff_proportion_conf_interval ndtri [pA; pB] [nA; nB] gamma
      = Ok (Num (pB - pA), NaN, NaN)).
Proof.
  split; [|split].
  - split.
    + intros [e He].
      destruct (Z.eq_dec nA 0) as [|HA]; [left; assumption|].
      destruct (Z.eq_dec nB 0) as [|HB]; [right; assumption|].
      rewrite diff_proportion_conf_interval_eval in He by assumption.
      discriminate He.
    + intros H. exists ZeroDivisionError.
      apply diff_proportion_conf_interval_zero. assumption.
  - apply diff_proportion_conf_interval_zero.
  - intros HA HB Hv.
    rewrite diff_proportion_conf_interval_eval by lia. cbv zeta.
    simpl np_sqrt. rewrite Rltb_true by assumption.
    unfold np_sub. rewrite np_mul_nan_r. simpl np_neg. rewrite np_add_nan_r.
    reflexivity.
Qed.

(** C7 as stated fails: the proportion 3/2 is outside [0,1] and no error
    is raised, whatever the normal quantile. *)
Lemma proportion_diff_interval_errors_counterexample :
  ~ exists ndtri : R -> R,
      raises (diff_proportion_conf_interval ndtri
                [3 / 2; 1 / 2] [10%Z; 10%Z] (95 / 100)).
Proof.
  intros (ndtri & e & H).
  rewrite diff_proportion_conf_interval_eval in H by lia.
  discriminate H.
Qed.

(** ** The invariant of the three intervals *)

(** C4 (as amended).  With quantiles that are non-negative from 1/2 on
    (and odd about 1/2 for the Student one), the triple returned on a
    valid input satisfies [lower <= point <= upper] and
    [upper - point = point - lower]: for [t_confidence_interval] on a
    sample of at least two elements with a positive standard deviation,
    for [proportion_conf_interval] when [0 <= x_success <= n_total] and
    [n_total > 0], and for [diff_proportion_conf_interval] on proportions
    in [0,1] and positive sample sizes; the confidence parameter is in
    (0,1). *)
Theorem interval_ordered_symmetric (ndtri : R -> R) (stdtrit : R -> R -> R) :
  quantile_upper_nonneg ndtri ->
  (forall df, 0 < df -> quantile_symmetric (stdtrit df)) ->
  (forall df, 0 < df -> quantile_upper_nonneg (stdtrit df)) ->
  (forall data alpha,
      (2 <= length data)%nat -> 0 < alpha < 1 -> 0 < sample_std data ->
      interval_invariant (t_confidence_interval stdtrit data alpha))
  /\ (forall x_success n_total alpha,
         (0 <= x_success <= n_total)%Z -> (0 < n_total)%Z -> 0 < alpha < 1 ->
         interval_invariant
           (proportion_conf_interval ndtri x_success n_total alpha))
  /\ (forall pA pB nA nB gamma,
         0 <= pA <= 1 -> 0 <= pB <= 1 -> (0 < nA)%Z -> (0 < nB)%Z ->
         0 < gamma < 1 ->
         interval_invariant
           (diff_proportion_conf_interval ndtri [pA; pB] [nA; nB] gamma)).
Proof.
  intros Hz Hsym Hq. split; [|split].
  - intros data alpha Hn Ha Hs.
    rewrite t_confidence_interval_regular by assumption.
    rewrite (stdtrit_lower_tail stdtrit (length data) alpha) by assumption.
    assert (H1 : 1 < INR (length data)).
    { change 1 with (INR 1). apply lt_INR. lia. }
    assert (Hc : 0 <= t_crit stdtrit (length data) alpha).
    { unfold t_crit. apply Hq; lra. }
    assert (Hse : 0 < std_error data).
    { unfold std_error. apply Rdiv_lt_0_compat; [assumption|].
      apply sqrt_INR_pos. lia. }
    unfold t_crit in *.
    apply interval_invariant_num; nra.
  - intros x n alpha Hx Hn Ha.
    rewrite proportion_conf_interval_valid by assumption.
    apply centered_interval_invariant.
    apply Rmult_le_pos.
    + unfold z_crit. apply Hz. lra.
    + apply sqrt_pos.
  - intros pA pB nA nB gamma HpA HpB HnA HnB Hg.
    rewrite diff_proportion_conf_interval_valid by assumption.
    apply centered_interval_invariant.
    apply Rmult_le_pos.
    + unfold z_crit. apply Hz. lra.
    + apply sqrt_pos.
Qed.

Lemma interval_ordered_symmetric_witness :
  (forall data alpha,
      (2 <= length data)%nat -> 0 < alpha < 1 -> 0 < sample_std data ->
      interval_invariant (t_confidence_interval uniform_quantile_df data alpha))
  /\ (forall x_success n_total alpha,
         (0 <= x_success <= n_total)%Z -> (0 < n_total)%Z -> 0 < alpha < 1 ->
         interval_invariant
           (proportion_conf_interval uniform_quantile x_success n_total alpha))
  /\ (forall pA pB nA nB gamma,
         0 <= pA <= 1 -> 0 <= pB <= 1 -> (0 < nA)%Z -> (0 < nB)%Z ->
         0 < gamma < 1 ->
         interval_invariant
           (diff_proportion_conf_interval uniform_quantile
              [pA; pB] [nA; nB] gamma)).
Proof.
  apply (interval_ordered_symmetric uniform_quantile uniform_quantile_df).
  - exact uniform_quantile_upper_nonneg.
  - intros df _. exact uniform_quantile_symmetric.
  - intros df _. exact uniform_quantile_upper_nonneg.
Defined.

(** C4 as stated fails for [t_confidence_interval] on a constant sample:
    on [5; 5; 5] the bounds are NaN and enclose nothing, whatever the
    Student quantile. *)
Lemma interval_ordered_symmetric_counterexample :
  ~ exists stdtrit : R -> R -> R,
      interval_invariant (t_confidence_interval stdtrit [5; 5; 5] (1 / 20)).
Proof.
  intros (stdtrit & point & lower & upper & H & Hl & _).
  rewrite (t_confidence_interval_repeat stdtrit 5 3) in H by (lia || lra).
  injection H as <- <- <-.
  exact Hl.
Qed.

(** * Further properties of the three functions *)

(** ** [t_confidence_interval]: the significance level *)

(** X1.  [t_confidence_interval] raises exactly when [alpha] is below 0
    or above 1 (the confidence [1 - alpha] handed to [t.interval] leaves
    [0,1]), and then it raises [ValueError], whatever the sample. *)
Theorem mean_interval_raises_iff (stdtrit : R -> R -> R) (data : list R)
    (alpha : R) :
  (raises (t_confidence_interval stdtrit data alpha)
   <-> alpha < 0 \/ 1 < alpha)
  /\ (alpha < 0 \/ 1 < alpha ->
      t_confidence_interval stdtrit data alpha = Raise ValueError).
Proof.
  assert (Hbad : alpha < 0 \/ 1 < alpha ->
                 t_confidence_interval stdtrit data alpha = Raise ValueError).
  { intros H. unfold t_confidence_interval, t_interval, rv_interval.
    destruct H as [H | H].
    - rewrite (Rltb_true 1 (1 - alpha)) by lra. reflexivity.
    - rewrite (Rltb_true (1 - alpha) 0) by lra.
      rewrite orb_true_r. reflexivity. }
  split; [split|exact Hbad].
  - intros [e He].
    destruct (Rlt_dec alpha 0) as [|H0]; [left; assumption|].
    destruct (Rlt_dec 1 alpha) as [|H1]; [right; assumption|].
    unfold t_confidence_interval, t_interval in He.
    rewrite rv_interval_ok in He by lra.
    discriminate He.
  - intros H. exists ValueError. apply Hbad. assumption.
Qed.

(** In exact arithmetic the bounds are numbers exactly when the sample
    has at least two elements that are not all equal. *)
Lemma t_confidence_interval_numeric_iff (stdtrit : R -> R -> R)
    (data : list R) (alpha : R) :
  0 < alpha < 1 ->
  ((exists lower upper,
       t_confidence_interval stdtrit data alpha
       = Ok (np_mean data, Num lower, Num upper))
   <-> (2 <= length data)%nat
       /\ ~ exists c, data = repeat c (length data))
  /\ (~ ((2 <= length data)%nat
         /\ ~ exists c, data = repeat c (length data)) ->
      t_confidence_interval stdtrit data alpha = Ok (np_mean data, NaN, NaN)).
Proof.
  intros Ha.
  assert (Hnan : ~ ((2 <= length data)%nat
                    /\ ~ exists c, data = repeat c (length data)) ->
                 t_confidence_interval stdtrit data alpha
                 = Ok (np_mean data, NaN, NaN)).
  { intros Hno.
    destruct (le_lt_dec 2 (length data)) as [Hn | Hn].
    - destruct (Rlt_dec 0 (sample_std data)) as [Hs | Hs].
      + exfalso. apply Hno. split; [assumption|].
        apply sample_std_pos_iff; assumption.
      + assert (H0 : sample_std data = 0).
        { pose proof (sqrt_pos (sum_sq_dev data / (INR (length data) - 1))).
          unfold sample_std in *. lra. }
        rewrite (sample_std_zero_constant data Hn H0) at 1 2.
        rewrite t_confidence_interval_repeat by assumption.
        rewrite np_mean_spec.
        * rewrite sample_mean_repeat by lia. reflexivity.
        * rewrite repeat_length. lia.
    - apply t_confidence_interval_short; assumption. }
  split; [split|exact Hnan].
  - intros (lower & upper & H).
    destruct (le_lt_dec 2 (length data)) as [Hn | Hn].
    + split; [assumption|]. intros Hc.
      rewrite Hnan in H by tauto. discriminate H.
    + rewrite Hnan in H by lia. discriminate H.
  - intros [Hn Hnc].
    rewrite t_confidence_interval_regular;
      [| assumption | assumption | apply sample_std_pos_iff; assumption].
    rewrite np_mean_spec by lia.
    do 2 eexists. reflexivity.
Qed.

Lemma constant_integers (zs : list Z) :
  (exists c : R, map IZR zs = repeat c (length (map IZR zs)))
  <-> exists c : Z, zs = repeat c (length zs).
Proof.
  split.
  - intros [c Hc]. destruct zs as [|z0 rest].
    + exists 0%Z. reflexivity.
    + exists z0. rewrite length_map in Hc.
      assert (Hc0 : c = IZR z0).
      { cbn [map length repeat] in Hc. injection Hc as H0 _. now symmetry. }
      subst c. clear -Hc.
      generalize dependent (z0 :: rest). intros l.
      induction l as [|z l IH]; intros H.
      * reflexivity.
      * cbn [map length repeat] in *. injection H as Hz Hl.
        apply eq_IZR in Hz. rewrite Hz. f_equal. apply IH. assumption.
  - intros [c Hc]. exists (IZR c). rewrite length_map.
    rewrite Hc at 1. apply map_repeat.
Qed.

(** X2.  On a sample of integers (with [n * |z| <= 2^53] for each element
    [z], so that sums of elements are computed without rounding), for
    [alpha] in (0,1), the two bounds returned by [t_confidence_interval]
    are numbers exactly when the sample has at least two elements that are
    not all equal; otherwise the result is the mean and two NaN bounds. *)
Theorem mean_interval_numeric_iff (stdtrit : R -> R -> R) (zs : list Z)
    (alpha : R) :
  0 < alpha < 1 ->
  Forall (fun z => (Z.of_nat (length zs) * Z.abs z <= 2 ^ 53)%Z) zs ->
  let data := map IZR zs in
  ((exists lower upper,
       t_confidence_interval stdtrit data alpha
       = Ok (np_mean data, Num lower, Num upper))
   <-> (2 <= length zs)%nat
       /\ ~ exists c, zs = repeat c (length zs))
  /\ (~ ((2 <= length zs)%nat
         /\ ~ exists c, zs = repeat c (length zs)) ->
      t_confidence_interval stdtrit data alpha = Ok (np_mean data, NaN, NaN)).
Proof.
  intros Ha _ data.
  destruct (t_confidence_interval_numeric_iff stdtrit data alpha Ha)
    as [Hiff Hnan].
  unfold data in *. rewrite length_map in Hiff, Hnan.
  pose proof (constant_integers zs) as Hc. rewrite length_map in Hc.
  split.
  - rewrite Hiff. rewrite Hc. reflexivity.
  - intros Hno. apply Hnan. rewrite Hc. exact Hno.
Qed.

Lemma mean_interval_numeric_iff_witness :
  ((exists lower upper,
       t_confidence_interval uniform_quantile_df (map IZR [1; 3]%Z) (1 / 20)
       = Ok (np_mean (map IZR [1; 3]%Z), Num lower, Num upper))
   <-> (2 <= length [1; 3]%Z)%nat
       /\ ~ exists c, [1; 3]%Z = repeat c (length [1; 3]%Z))
  /\ (~ ((2 <= length [1; 3]%Z)%nat
         /\ ~ exists c, [1; 3]%Z = repeat c (length [1; 3]%Z)) ->
      t_confidence_interval uniform_quantile_df (map IZR [1; 3]%Z) (1 / 20)
      = Ok (np_mean (map IZR [1; 3]%Z), NaN, NaN)).
Proof.
  apply (mean_interval_numeric_iff uniform_quantile_df [1; 3]%Z (1 / 20)).
  - lra.
  - repeat constructor; vm_compute; discriminate.
Defined.

(** ** [t_confidence_interval]: change of origin *)

Lemma Rsum_map_shift (c : R) (l : list R) :
  Rsum (map (fun x => x + c) l) = Rsum l + INR (length l) * c.
Proof.
  induction l as [|x l IH].
  - simpl. ring.
  - change (Rsum (map (fun x => x + c) (x :: l)))
      with (x + c + Rsum (map (fun x => x + c) l)).
    change (Rsum (x :: l)) with (x + Rsum l).
    change (length (x :: l)) with (S (length l)).
    rewrite IH, S_INR. ring.
Qed.

Lemma sample_mean_shift (c : R) (l : list R) :
  (1 <= length l)%nat ->
  sample_mean (map (fun x => x + c) l) = sample_mean l + c.
Proof.
  intros Hn. unfold sample_mean.
  rewrite Rsum_map_shift, length_map.
  pose proof (INR_length_pos l Hn). field. lra.
Qed.

Lemma sum_sq_dev_shift (c : R) (l : list R) :
  (1 <= length l)%nat ->
  sum_sq_dev (map (fun x => x + c) l) = sum_sq_dev l.
Proof.
  intros Hn. unfold sum_sq_dev.
  rewrite sample_mean_shift by assumption.
  rewrite map_map. f_equal. apply map_ext.
  intros x. f_equal. ring.
Qed.

Lemma std_error_shift (c : R) (l : list R) :
  (1 <= length l)%nat ->
  std_error (map (fun x => x + c) l) = std_error l.
Proof.
  intros Hn. unfold std_error, sample_std.
  rewrite sum_sq_dev_shift by assumption.
  rewrite length_map. reflexivity.
Qed.

Lemma np_mean_shift (c : R) (l : list R) :
  np_mean (map (fun x => x + c) l) = np_add (np_mean l) (Num c).
Proof.
  destruct l as [|x l].
  - simpl map. rewrite np_mean_empty. reflexivity.
  - rewrite !np_mean_spec by (rewrite ?length_map; simpl; lia).
    rewrite sample_mean_shift by (simpl; lia). reflexivity.
Qed.

(** The scale handed to [t.interval] does not see the shift. *)
Lemma scale_shift (c : R) (l : list R) :
  np_div (np_std (map (fun x => x + c) l) 1)
         (np_sqrt (Num (INR (length (map (fun x => x + c) l)))))
  = np_div (np_std l 1) (np_sqrt (Num (INR (length l)))).
Proof.
  destruct (le_lt_dec 2 (length l)) as [Hn | Hn].
  - rewrite !scale_spec by (rewrite ?length_map; assumption).
    rewrite std_error_shift by lia. reflexivity.
  - rewrite !scale_short by (rewrite ?length_map; assumption).
    reflexivity.
Qed.

Lemma np_not_nan_add_num (a : float64) (c : R) :
  np_not_nan (np_add a (Num c)) = np_not_nan a.
Proof. destruct a; reflexivity. Qed.

Lemma np_add_assoc_num (a b : float64) (c : R) :
  np_add a (np_add b (Num c)) = np_add (np_add a b) (Num c).
Proof.
  destruct a as [x|s|], b as [y|s'|]; simpl; try reflexivity.
  - f_equal. ring.
  - destruct (Bool.eqb s s'); reflexivity.
Qed.

Lemma rv_ppf_shift (f : R -> R) (a : bool) (q c : R) (loc scale : float64) :
  rv_ppf f a q (np_add loc (Num c)) scale
  = np_add (rv_ppf f a q loc scale) (Num c).
Proof.
  unfold rv_ppf. rewrite np_not_nan_add_num.
  repeat match goal with
         | |- context [if ?b then _ else _] => destruct b
         end;
    first [apply np_add_assoc_num | reflexivity].
Qed.

(** X3.  On a sample of at least two elements with a positive standard
    deviation, adding a constant [c] to every element adds [c] to the
    three components that [t_confidence_interval] returns: the mean moves
    with the data and the half-width is unchanged.  This holds for every
    [alpha]; a raised [ValueError] stays raised. *)
Theorem mean_interval_shift (stdtrit : R -> R -> R) (data : list R)
    (c alpha : R) :
  (2 <= length data)%nat -> 0 < sample_std data ->
  t_confidence_interval stdtrit (map (fun x => x + c) data) alpha
  = triple_map (fun v => np_add v (Num c))
      (t_confidence_interval stdtrit data alpha).
Proof.
  intros _ _. unfold t_confidence_interval.
  rewrite scale_shift, np_mean_shift, length_map.
  unfold t_interval, rv_interval.
  destruct (Rltb 1 (1 - alpha) || Rltb (1 - alpha) 0).
  - reflexivity.
  - cbn [bind fst snd triple_map].
    rewrite !rv_ppf_shift. reflexivity.
Qed.

Lemma mean_interval_shift_witness :
  t_confidence_interval uniform_quantile_df
    (map (fun x => x + 10) [1; 3]) (1 / 20)
  = triple_map (fun v => np_add v (Num 10))
      (t_confidence_interval uniform_quantile_df [1; 3] (1 / 20)).
Proof.
  apply (mean_interval_shift uniform_quantile_df [1; 3] 10 (1 / 20)).
  - simpl. lia.
  - exact sample_std_1_3.
Defined.

(** ** [t_confidence_interval]: change of unit *)

Lemma Reqb_scale (k y : R) : 0 < k -> Reqb (k * y) 0 = Reqb y 0.
Proof.
  intros Hk. unfold Reqb.
  destruct (Req_dec_T (k * y) 0), (Req_dec_T y 0); try reflexivity; exfalso; nra.
Qed.

Lemma Rltb_scale_neg (k y : R) : 0 < k -> Rltb (k * y) 0 = Rltb y 0.
Proof.
  intros Hk. unfold Rltb.
  destruct (Rlt_dec (k * y) 0), (Rlt_dec y 0); try reflexivity; exfalso; nra.
Qed.

Lemma Rltb_scale_pos (k y : R) : 0 < k -> Rltb 0 (k * y) = Rltb 0 y.
Proof.
  intros Hk. unfold Rltb.
  destruct (Rlt_dec 0 (k * y)), (Rlt_dec 0 y); try reflexivity; exfalso; nra.
Qed.

Lemma np_mul_pos_inf (k : R) (s : bool) : 0 < k -> np_mul (Num k) (Inf s) = Inf s.
Proof.
  intros Hk. simpl.
  rewrite Reqb_false, Rltb_false by lra. now rewrite xorb_false_r.
Qed.

Ltac scale_cases Hk :=
  let E1 := fresh "E" in
  let E2 := fresh "E" in
  pose proof (Reqb_false _ 0 (Rgt_not_eq _ _ Hk)) as E1;
  pose proof (Rltb_false _ 0 (Rlt_le _ _ Hk)) as E2;
  simpl;
  rewrite ?(Reqb_scale _ _ Hk), ?(Rltb_scale_neg _ _ Hk),
    ?(Rltb_scale_pos _ _ Hk), ?E1, ?E2, ?xorb_false_r;
  repeat match goal with
         | |- context [if ?b then _ else _] => destruct b
         end;
  simpl; rewrite ?E1, ?E2, ?xorb_false_r;
  try reflexivity.

Lemma np_pos_scale (k : R) (a : float64) :
  0 < k -> np_pos (np_mul (Num k) a) = np_pos a.
Proof.
  intros Hk. destruct a as [x|s|]; [| rewrite np_mul_pos_inf by assumption |];
    scale_cases Hk.
Qed.

Lemma np_not_nan_scale (k : R) (a : float64) :
  0 < k -> np_not_nan (np_mul (Num k) a) = np_not_nan a.
Proof.
  intros Hk. destruct a as [x|s|]; [| rewrite np_mul_pos_inf by assumption |];
    reflexivity.
Qed.

Lemma np_mul_scale_r (k : R) (a b : float64) :
  0 < k -> np_mul a (np_mul (Num k) b) = np_mul (Num k) (np_mul a b).
Proof.
  intros Hk.
  destruct a as [x|s|], b as [y|s'|];
    rewrite ?(np_mul_pos_inf _ _ Hk); scale_cases Hk.
  f_equal. ring.
Qed.

Lemma np_add_scale (k : R) (a b : float64) :
  0 < k ->
  np_add (np_mul (Num k) a) (np_mul (Num k) b) = np_mul (Num k) (np_add a b).
Proof.
  intros Hk.
  destruct a as [x|s|], b as [y|s'|];
    rewrite ?(np_mul_pos_inf _ _ Hk); scale_cases Hk.
  f_equal. ring.
Qed.

Lemma rv_ppf_scale (f : R -> R) (a : bool) (q k : R) (loc scale : float64) :
  0 < k ->
  rv_ppf f a q (np_mul (Num k) loc) (np_mul (Num k) scale)
  = np_mul (Num k) (rv_ppf f a q loc scale).
Proof.
  intros Hk. unfold rv_ppf.
  rewrite np_pos_scale, np_not_nan_scale by assumption.
  repeat match goal with
         | |- context [if ?b then _ else _] => destruct b
         end;
    first [ rewrite np_mul_scale_r, np_add_scale by assumption; reflexivity
          | reflexivity ].
Qed.

Lemma Rsum_map_scale (k : R) (l : list R) :
  Rsum (map (fun x => k * x) l) = k * Rsum l.
Proof.
  induction l as [|x l IH].
  - simpl. ring.
  - change (Rsum (map (fun x => k * x) (x :: l)))
      with (k * x + Rsum (map (fun x => k * x) l)).
    change (Rsum (x :: l)) with (x + Rsum l).
    rewrite IH. ring.
Qed.

Lemma sample_mean_scale (k : R) (l : list R) :
  sample_mean (map (fun x => k * x) l) = k * sample_mean l.
Proof.
  unfold sample_mean. rewrite Rsum_map_scale, length_map.
  unfold Rdiv. ring.
Qed.

Lemma sum_sq_dev_scale (k : R) (l : list R) :
  sum_sq_dev (map (fun x => k * x) l) = k * k * sum_sq_dev l.
Proof.
  unfold sum_sq_dev. rewrite sample_mean_scale.
  generalize (sample_mean l). intros m.
  induction l as [|x l IH].
  - simpl. ring.
  - cbn [map Rsum fold_right] in *. unfold Rsum in IH. rewrite IH.
    unfold Rsqr. ring.
Qed.

Lemma std_error_scale (k : R) (l : list R) :
  0 < k -> std_error (map (fun x => k * x) l) = k * std_error l.
Proof.
  intros Hk. unfold std_error, sample_std.
  rewrite sum_sq_dev_scale, length_map.
  replace (k * k * sum_sq_dev l / (INR (length l) - 1))
    with (k * k * (sum_sq_dev l / (INR (length l) - 1)))
    by (unfold Rdiv; ring).
  rewrite sqrt_mult_alt by nra.
  rewrite sqrt_square by lra.
  unfold Rdiv. ring.
Qed.

Lemma np_mean_scale (k : R) (l : list R) :
  np_mean (map (fun x => k * x) l) = np_mul (Num k) (np_mean l).
Proof.
  destruct l as [|x l].
  - simpl map. rewrite np_mean_empty. reflexivity.
  - rewrite !np_mean_spec by (rewrite ?length_map; simpl; lia).
    rewrite sample_mean_scale. reflexivity.
Qed.

Lemma scale_scale (k : R) (l : list R) :
  0 < k ->
  np_div (np_std (map (fun x => k * x) l) 1)
         (np_sqrt (Num (INR (length (map (fun x => k * x) l)))))
  = np_mul (Num k) (np_div (np_std l 1) (np_sqrt (Num (INR (length l))))).
Proof.
  intros Hk.
  destruct (le_lt_dec 2 (length l)) as [Hn | Hn].
  - rewrite !scale_spec by (rewrite ?length_map; assumption).
    rewrite std_error_scale by assumption. reflexivity.
  - rewrite !scale_short by (rewrite ?length_map; assumption).
    reflexivity.
Qed.

(** X4.  On a sample of at least two elements with a positive standard
    deviation, multiplying every element by a constant [k > 0] multiplies
    by [k] the three components that [t_confidence_interval] returns, for
    every [alpha]. *)
Theorem mean_interval_rescale (stdtrit : R -> R -> R) (data : list R)
    (k alpha : R) :
  (2 <= length data)%nat -> 0 < sample_std data -> 0 < k ->
  t_confidence_interval stdtrit (map (fun x => k * x) data) alpha
  = triple_map (np_mul (Num k)) (t_confidence_interval stdtrit data alpha).
Proof.
  intros _ _ Hk. unfold t_confidence_interval.
  rewrite scale_scale, np_mean_scale, length_map by assumption.
  unfold t_interval, rv_interval.
  destruct (Rltb 1 (1 - alpha) || Rltb (1 - alpha) 0).
  - reflexivity.
  - cbn [bind fst snd triple_map].
    rewrite !rv_ppf_scale by assumption. reflexivity.
Qed.

Lemma mean_interval_rescale_witness :
  t_confidence_interval uniform_quantile_df
    (map (fun x => 100 * x) [1; 3]) (1 / 20)
  = triple_map (np_mul (Num 100))
      (t_confidence_interval uniform_quantile_df [1; 3] (1 / 20)).
Proof.
  apply (mean_interval_rescale uniform_quantile_df [1; 3] 100 (1 / 20)).
  - simpl. lia.
  - exact sample_std_1_3.
  - lra.
Defined.

(** ** [t_confidence_interval]: the order of the sample *)

Lemma Rsum_perm (l l' : list R) : Permutation l l' -> Rsum l = Rsum l'.
Proof.
  induction 1 as [| x l l' _ IH | x y l | l l' l'' _ IH1 _ IH2].
  - reflexivity.
  - change (x + Rsum l = x + Rsum l'). rewrite IH. reflexivity.
  - change (y + (x + Rsum l) = x + (y + Rsum l)). ring.
  - congruence.
Qed.

Lemma sample_mean_perm (l l' : list R) :
  Permutation l l' -> sample_mean l = sample_mean l'.
Proof.
  intros H. unfold sample_mean.
  rewrite (Rsum_perm l l' H), (Permutation_length H). reflexivity.
Qed.

Lemma std_error_perm (l l' : list R) :
  Permutation l l' -> std_error l = std_error l'.
Proof.
  intros H. unfold std_error, sample_std, sum_sq_dev.
  rewrite (sample_mean_perm l l' H), (Permutation_length H).
  rewrite (Rsum_perm _ _ (Permutation_map _ H)). reflexivity.
Qed.

(** X5.  [t_confidence_interval] does not depend on the order of the
    sample: two samples that are permutations of each other give the same
    result, for every [alpha]. *)
Theorem mean_interval_permutation (stdtrit : R -> R -> R) (data data' : list R)
    (alpha : R) :
  Permutation data data' ->
  t_confidence_interval stdtrit data alpha
  = t_confidence_interval stdtrit data' alpha.
Proof.
  intros H. unfold t_confidence_interval.
  pose proof (Permutation_length H) as Hlen.
  assert (Hmean : np_mean data = np_mean data').
  { unfold np_mean. rewrite !np_sum_asarray, !length_asarray.
    rewrite (Rsum_perm _ _ H), Hlen. reflexivity. }
  assert (Hscale :
            np_div (np_std data 1) (np_sqrt (Num (INR (length data))))
            = np_div (np_std data' 1) (np_sqrt (Num (INR (length data'))))).
  { destruct (le_lt_dec 2 (length data)) as [Hn | Hn].
    - rewrite !scale_spec by lia.
      rewrite (std_error_perm _ _ H). reflexivity.
    - rewrite !scale_short by lia. reflexivity. }
  rewrite Hmean, Hscale, Hlen. reflexivity.
Qed.

Lemma mean_interval_permutation_witness :
  t_confidence_interval uniform_quantile_df [1; 3; 2] (1 / 20)
  = t_confidence_interval uniform_quantile_df [3; 1; 2] (1 / 20).
Proof.
  apply (mean_interval_permutation uniform_quantile_df [1; 3; 2] [3; 1; 2]).
  apply perm_swap.
Defined.

(** ** [t_confidence_interval]: confidence 1 *)

(** X6.  At [alpha = 0] (confidence 1) a sample of at least two elements
    that are not all equal gets the whole line: the bounds are minus and
    plus infinity around the sample mean. *)
Theorem mean_interval_alpha_zero (stdtrit : R -> R -> R) (data : list R) :
  (2 <= length data)%nat -> 0 < sample_std data ->
  t_confidence_interval stdtrit data 0
  = Ok (Num (sample_mean data), Inf true, Inf false).
Proof.
  intros Hn Hs. unfold t_confidence_interval.
  rewrite scale_spec, np_mean_spec by lia.
  assert (Hse : 0 < std_error data).
  { unfold std_error. apply Rdiv_lt_0_compat; [assumption|].
    apply sqrt_INR_pos. lia. }
  assert (H1 : 1 < INR (length data)).
  { change 1 with (INR 1). apply lt_INR. lia. }
  unfold t_interval. rewrite rv_interval_ok by lra.
  replace (IZR (Z.of_nat (length data) - 1)) with (INR (length data) - 1)
    by (rewrite minus_IZR, <- INR_IZR_INZ; reflexivity).
  unfold rv_ppf. cbn [np_pos np_not_nan].
  rewrite (Rltb_true 0 (INR (length data) - 1)) by lra.
  rewrite (Rltb_true 0 (std_error data)) by assumption.
  cbn [andb].
  rewrite (Rltb_false 0 ((1 - (1 - 0)) / 2)) by lra.
  rewrite (Reqb_true ((1 - (1 - 0)) / 2) 0) by lra.
  rewrite (Rltb_false ((1 + (1 - 0)) / 2) 1) by lra.
  rewrite andb_false_r.
  rewrite (Reqb_false ((1 + (1 - 0)) / 2) 0) by lra.
  rewrite (Reqb_true ((1 + (1 - 0)) / 2) 1) by lra.
  cbn [np_mul np_add bind fst snd].
  rewrite (Reqb_false (std_error data) 0) by lra.
  rewrite (Rltb_false (std_error data) 0) by lra.
  reflexivity.
Qed.

Lemma mean_interval_alpha_zero_witness :
  t_confidence_interval uniform_quantile_df [1; 3] 0
  = Ok (Num (sample_mean [1; 3]), Inf true, Inf false).
Proof.
  apply (mean_interval_alpha_zero uniform_quantile_df [1; 3]).
  - simpl. lia.
  - exact sample_std_1_3.
Defined.

(** ** [proportion_conf_interval]: further properties *)

Lemma sqrt_upper (a v : R) : 0 <= a -> v <= a * a -> sqrt v <= a.
Proof.
  intros Ha Hv. rewrite <- (sqrt_square a) by assumption.
  apply sqrt_le_1_alt. assumption.
Qed.

(** X7.  Counting failures instead of successes mirrors the interval
    about 1/2: on a valid input, if [x_success] out of [n_total] gives
    [(p, lower, upper)] then [n_total - x_success] out of [n_total] gives
    [(1 - p, 1 - upper, 1 - lower)]. *)
Theorem proportion_interval_complement (ndtri : R -> R) (x_success n_total : Z)
    (alpha : R) :
  (0 <= x_success <= n_total)%Z -> (0 < n_total)%Z -> 0 < alpha < 1 ->
  exists p lower upper,
    proportion_conf_interval ndtri x_success n_total alpha
    = Ok (Num p, Num lower, Num upper)
    /\ proportion_conf_interval ndtri (n_total - x_success) n_total alpha
       = Ok (Num (1 - p), Num (1 - upper), Num (1 - lower)).
Proof.
  intros Hx Hn Ha.
  rewrite !proportion_conf_interval_valid by (lia || assumption).
  do 3 eexists. split; [reflexivity|].
  pose proof (IZR_lt _ _ Hn) as Hn'.
  assert (Hp : IZR (n_total - x_success) / IZR n_total
               = 1 - IZR x_success / IZR n_total).
  { rewrite minus_IZR. field. lra. }
  rewrite Hp.
  assert (Hse : prop_se (1 - IZR x_success / IZR n_total) (IZR n_total)
                = prop_se (IZR x_success / IZR n_total) (IZR n_total)).
  { unfold prop_se. f_equal. unfold Rdiv. ring. }
  rewrite Hse.
  do 2 f_equal; [f_equal|]; f_equal; ring.
Qed.

Lemma proportion_interval_complement_witness :
  exists p lower upper,
    proportion_conf_interval uniform_quantile 30 100 (1 / 20)
    = Ok (Num p, Num lower, Num upper)
    /\ proportion_conf_interval uniform_quantile (100 - 30) 100 (1 / 20)
       = Ok (Num (1 - p), Num (1 - upper), Num (1 - lower)).
Proof.
  apply (proportion_interval_complement uniform_quantile 30 100 (1 / 20)).
  - lia.
  - lia.
  - lra.
Defined.

Lemma prop_se_bound (p n : R) :
  0 < n -> prop_se p n <= / (2 * sqrt n).
Proof.
  intros Hn. unfold prop_se.
  pose proof (sqrt_lt_R0 n Hn) as Hs.
  pose proof (sqrt_sqrt n (Rlt_le _ _ Hn)) as Hss.
  apply sqrt_upper.
  - left. apply Rinv_0_lt_compat. lra.
  - replace (/ (2 * sqrt n) * / (2 * sqrt n)) with (1 / 4 * / n).
    + unfold Rdiv at 1. apply Rmult_le_compat_r.
      * left. now apply Rinv_0_lt_compat.
      * pose proof (Rle_0_sqr (p - 1 / 2)) as Hsq. unfold Rsqr in Hsq. lra.
    + rewrite <- Hss at 1. field. lra.
Qed.

(** X8.  On a valid input, with a non-negative critical value [z], the
    half-width of the interval of [proportion_conf_interval] is at most
    [z / (2 * sqrt n_total)], whatever the number of successes. *)
Theorem proportion_interval_width_bound (ndtri : R -> R) (x_success n_total : Z)
    (alpha : R) :
  (0 <= x_success <= n_total)%Z -> (0 < n_total)%Z -> 0 < alpha < 1 ->
  0 <= ndtri (1 - alpha / 2) ->
  exists p lower upper,
    proportion_conf_interval ndtri x_success n_total alpha
    = Ok (Num p, Num lower, Num upper)
    /\ upper - p <= ndtri (1 - alpha / 2) / (2 * sqrt (IZR n_total))
    /\ p - lower <= ndtri (1 - alpha / 2) / (2 * sqrt (IZR n_total)).
Proof.
  intros Hx Hn Ha Hz.
  rewrite proportion_conf_interval_valid by assumption.
  do 3 eexists. split; [reflexivity|].
  pose proof (prop_se_bound (IZR x_success / IZR n_total) (IZR n_total)
                (IZR_lt _ _ Hn)) as Hb.
  unfold z_crit, Rdiv.
  split.
  - replace (IZR x_success * / IZR n_total
             + ndtri (1 - alpha * / 2)
               * prop_se (IZR x_success * / IZR n_total) (IZR n_total)
             - IZR x_success * / IZR n_total)
      with (ndtri (1 - alpha * / 2)
            * prop_se (IZR x_success * / IZR n_total) (IZR n_total)) by ring.
    apply Rmult_le_compat_l; assumption.
  - replace (IZR x_success * / IZR n_total
             - (IZR x_success * / IZR n_total
                - ndtri (1 - alpha * / 2)
                  * prop_se (IZR x_success * / IZR n_total) (IZR n_total)))
      with (ndtri (1 - alpha * / 2)
            * prop_se (IZR x_success * / IZR n_total) (IZR n_total)) by ring.
    apply Rmult_le_compat_l; assumption.
Qed.

Lemma proportion_interval_width_bound_witness :
  exists p lower upper,
    proportion_conf_interval uniform_quantile 30 100 (1 / 20)
    = Ok (Num p, Num lower, Num upper)
    /\ upper - p <= uniform_quantile (1 - 1 / 20 / 2) / (2 * sqrt (IZR 100))
    /\ p - lower <= uniform_quantile (1 - 1 / 20 / 2) / (2 * sqrt (IZR 100)).
Proof.
  apply (proportion_interval_width_bound uniform_quantile 30 100 (1 / 20)).
  - lia.
  - lia.
  - lra.
  - unfold uniform_quantile. lra.
Defined.

Lemma prop_se_scale (p n k : R) :
  0 < k -> prop_se p (k * n) = prop_se p n / sqrt k.
Proof.
  intros Hk. unfold prop_se.
  rewrite <- sqrt_div_alt by assumption.
  destruct (Req_dec_T n 0) as [-> | Hn].
  - rewrite Rmult_0_r. unfold Rdiv. rewrite Rinv_0, !Rmult_0_r, Rmult_0_l.
    reflexivity.
  - f_equal. field. lra.
Qed.

(** X9.  Multiplying both counts by the same [k > 0] keeps the point
    estimate and divides the half-width of the interval by [sqrt k]: with
    four times the data at the same rate the interval is half as wide. *)
Theorem proportion_interval_sample_size (ndtri : R -> R)
    (x_success n_total k : Z) (alpha : R) :
  (0 <= x_success <= n_total)%Z -> (0 < n_total)%Z -> (0 < k)%Z ->
  0 < alpha < 1 ->
  exists p lower upper,
    proportion_conf_interval ndtri x_success n_total alpha
    = Ok (Num p, Num lower, Num upper)
    /\ proportion_conf_interval ndtri (k * x_success) (k * n_total) alpha
       = Ok (Num p,
             Num (p - (p - lower) / sqrt (IZR k)),
             Num (p + (upper - p) / sqrt (IZR k))).
Proof.
  intros Hx Hn Hk Ha.
  rewrite !proportion_conf_interval_valid by (nia || assumption).
  do 3 eexists. split; [reflexivity|].
  pose proof (IZR_lt _ _ Hn) as Hn'. pose proof (IZR_lt _ _ Hk) as Hk'.
  assert (Hp : IZR (k * x_success) / IZR (k * n_total)
               = IZR x_success / IZR n_total).
  { rewrite !mult_IZR. field. lra. }
  rewrite Hp, mult_IZR, prop_se_scale by assumption.
  pose proof (sqrt_lt_R0 _ Hk') as Hs.
  do 2 f_equal; [f_equal|]; f_equal; field; lra.
Qed.

Lemma proportion_interval_sample_size_witness :
  exists p lower upper,
    proportion_conf_interval uniform_quantile 30 100 (1 / 20)
    = Ok (Num p, Num lower, Num upper)
    /\ proportion_conf_interval uniform_quantile (4 * 30) (4 * 100) (1 / 20)
       = Ok (Num p,
             Num (p - (p - lower) / sqrt (IZR 4)),
             Num (p + (upper - p) / sqrt (IZR 4))).
Proof.
  apply (proportion_interval_sample_size uniform_quantile 30 100 4 (1 / 20)).
  - lia.
  - lia.
  - lia.
  - lra.
Defined.

(** X10.  On a valid input with a non-negative critical value [z], the
    lower bound of [proportion_conf_interval] is non-negative exactly when
    [z^2 * p (1 - p) <= n_total * p^2], and the upper bound is at most 1
    exactly when [z^2 * p (1 - p) <= n_total * (1 - p)^2]: this is when
    the unclamped bounds stay inside [0,1]. *)
Theorem proportion_interval_inside_unit (ndtri : R -> R) (x_success n_total : Z)
    (alpha : R) :
  (0 <= x_success <= n_total)%Z -> (0 < n_total)%Z -> 0 < alpha < 1 ->
  0 <= ndtri (1 - alpha / 2) ->
  exists p lower upper,
    proportion_conf_interval ndtri x_success n_total alpha
    = Ok (Num p, Num lower, Num upper)
    /\ p = IZR x_success / IZR n_total
    /\ (0 <= lower
        <-> Rsqr (ndtri (1 - alpha / 2)) * (p * (1 - p))
            <= IZR n_total * Rsqr p)
    /\ (upper <= 1
        <-> Rsqr (ndtri (1 - alpha / 2)) * (p * (1 - p))
            <= IZR n_total * Rsqr (1 - p)).
Proof.
  intros Hx Hn Ha Hz.
  rewrite proportion_conf_interval_valid by assumption.
  do 3 eexists. split; [reflexivity|]. split; [reflexivity|].
  pose proof (proportion_in_unit _ _ Hx Hn) as Hp.
  pose proof (IZR_lt _ _ Hn) as Hn'.
  pose proof (variance_term_nonneg _ _ Hp Hn') as Hv.
  unfold z_crit, prop_se.
  set (p := IZR x_success / IZR n_total) in *.
  set (z := ndtri (1 - alpha / 2)) in *.
  set (n := IZR n_total) in *.
  pose proof (sqrt_pos (p * (1 - p) / n)) as Hs0.
  pose proof (sqrt_sqrt _ Hv) as Hss.
  set (s := sqrt (p * (1 - p) / n)) in *.
  assert (Hvn : p * (1 - p) = n * (s * s)).
  { rewrite Hss. field. lra. }
  assert (Hzs : 0 <= z * s) by (apply Rmult_le_pos; assumption).
  unfold Rsqr. rewrite Hvn.
  split; split; intros H.
  - assert (Hsq : (z * s) * (z * s) <= p * p) by nra. nra.
  - assert (Hsq : (z * s) * (z * s) <= p * p) by nra.
    assert (z * s <= p) by nra. lra.
  - assert (Hsq : (z * s) * (z * s) <= (1 - p) * (1 - p)) by nra. nra.
  - assert (Hsq : (z * s) * (z * s) <= (1 - p) * (1 - p)) by nra.
    assert (z * s <= 1 - p) by nra. lra.
Qed.

Lemma proportion_interval_inside_unit_witness :
  exists p lower upper,
    proportion_conf_interval uniform_quantile 30 100 (1 / 20)
    = Ok (Num p, Num lower, Num upper)
    /\ p = IZR 30 / IZR 100
    /\ (0 <= lower
        <-> Rsqr (uniform_quantile (1 - 1 / 20 / 2)) * (p * (1 - p))
            <= IZR 100 * Rsqr p)
    /\ (upper <= 1
        <-> Rsqr (uniform_quantile (1 - 1 / 20 / 2)) * (p * (1 - p))
            <= IZR 100 * Rsqr (1 - p)).
Proof.
  apply (proportion_interval_inside_unit uniform_quantile 30 100 (1 / 20)).
  - lia.
  - lia.
  - lra.
  - unfold uniform_quantile. lra.
Defined.

Lemma norm_ppf_one (ndtri : R -> R) (q : R) :
  q = 1 -> norm_ppf ndtri q = Inf false.
Proof.
  intros ->. unfold norm_ppf, rv_ppf. cbn [np_pos np_not_nan andb].
  rewrite (Rltb_true 0 1) by lra.
  rewrite (Rltb_false 1 1) by lra.
  rewrite (Reqb_false 1 0) by lra.
  rewrite (Reqb_true 1 1) by reflexivity.
  cbn [andb np_mul].
  rewrite (Reqb_false 1 0) by lra.
  rewrite (Rltb_false 1 0) by lra.
  reflexivity.
Qed.

(** X11.  At [alpha = 0] the critical value [norm.ppf(1)] is infinite.
    With [n_total > 0], [proportion_conf_interval] then returns the bounds
    minus and plus infinity when [0 < x_success < n_total], and two NaN
    bounds (infinity times a zero standard error) when [x_success] is 0 or
    [n_total]: the point interval of the degenerate case needs
    [alpha > 0]. *)
Theorem proportion_interval_alpha_zero (ndtri : R -> R) (x_success n_total : Z) :
  (0 < n_total)%Z ->
  ((0 < x_success < n_total)%Z ->
   proportion_conf_interval ndtri x_success n_total 0
   = Ok (Num (IZR x_success / IZR n_total), Inf true, Inf false))
  /\ (x_success = 0%Z \/ x_success = n_total ->
      proportion_conf_interval ndtri x_success n_total 0
      = Ok (Num (IZR x_success / IZR n_total), NaN, NaN)).
Proof.
  intros Hn. pose proof (IZR_lt _ _ Hn) as Hn'.
  pose proof (Rinv_0_lt_compat _ Hn') as Hi.
  split.
  - intros [H0 H1].
    rewrite proportion_conf_interval_eval by lia. cbv zeta.
    rewrite norm_ppf_one by lra.
    apply IZR_lt in H0. apply IZR_lt in H1.
    assert (Hp : 0 < IZR x_success / IZR n_total < 1).
    { split.
      - unfold Rdiv. nra.
      - apply Rmult_lt_reg_r with (IZR n_total); [assumption|].
        unfold Rdiv. rewrite Rmult_assoc, Rinv_l by lra. lra. }
    set (p := IZR x_success / IZR n_total) in *.
    assert (Hv : 0 < p * (1 - p) / IZR n_total).
    { unfold Rdiv. apply Rmult_lt_0_compat; [nra | assumption]. }
    pose proof (sqrt_lt_R0 _ Hv) as Hs.
    cbn [np_sqrt]. rewrite (Rltb_false _ 0) by lra.
    cbn [np_mul]. rewrite Reqb_false, Rltb_false by lra.
    reflexivity.
  - intros Hx.
    rewrite proportion_conf_interval_eval by lia. cbv zeta.
    rewrite norm_ppf_one by lra.
    set (p := IZR x_success / IZR n_total).
    assert (Hv : p * (1 - p) / IZR n_total = 0).
    { assert (Hp : p = 0 \/ p = 1).
      { unfold p. destruct Hx as [-> | ->].
        - left. unfold Rdiv. ring.
        - right. field. lra. }
      unfold Rdiv at 1. destruct Hp as [-> | ->]; ring. }
    rewrite Hv. cbn [np_sqrt]. rewrite (Rltb_false 0 0) by lra.
    rewrite sqrt_0. cbn [np_mul]. rewrite (Reqb_true 0 0) by reflexivity.
    reflexivity.
Qed.

Lemma proportion_interval_alpha_zero_witness :
  ((0 < 30 < 100)%Z ->
   proportion_conf_interval uniform_quantile 30 100 0
   = Ok (Num (IZR 30 / IZR 100), Inf true, Inf false))
  /\ (30%Z = 0%Z \/ 30%Z = 100%Z ->
      proportion_conf_interval uniform_quantile 30 100 0
      = Ok (Num (IZR 30 / IZR 100), NaN, NaN)).
Proof.
  apply (proportion_interval_alpha_zero uniform_quantile 30 100).
  lia.
Defined.

(** ** [diff_proportion_conf_interval]: further properties *)

(** X12.  The errors of [diff_proportion_conf_interval] on lists that are
    too short, in the order the code meets them: with fewer than two
    proportions it raises [IndexError] whatever the sample sizes; with two
    proportions and no sample size it raises [IndexError]; with a single
    sample size it raises [ZeroDivisionError] when that size is 0 (the
    division comes before the second size is read) and [IndexError]
    otherwise. *)
Theorem proportion_diff_interval_short_lists (ndtri : R -> R) (x_p : list R)
    (n : list Z) (gamma : R) :
  ((length x_p < 2)%nat ->
   diff_proportion_conf_interval ndtri x_p n gamma = Raise IndexError)
  /\ ((2 <= length x_p)%nat -> n = [] ->
      diff_proportion_conf_interval ndtri x_p n gamma = Raise IndexError)
  /\ (forall n0, (2 <= length x_p)%nat -> n = [n0] ->
      diff_proportion_conf_interval ndtri x_p n gamma
      = if Z.eqb n0 0 then Raise ZeroDivisionError else Raise IndexError).
Proof.
  split; [|split].
  - intros H. destruct x_p as [|pA [|pB rest]]; simpl in H; try lia; reflexivity.
  - intros H ->. destruct x_p as [|pA [|pB rest]]; simpl in H; try lia.
    reflexivity.
  - intros n0 H ->. destruct x_p as [|pA [|pB rest]]; simpl in H; try lia.
    unfold diff_proportion_conf_interval. cbn [py_index nth_error bind].
    destruct (Z.eqb_spec n0 0) as [-> | Hne].
    + rewrite py_div_zero. reflexivity.
    + rewrite py_div_ok by (apply not_0_IZR; assumption). reflexivity.
Qed.

(** X13.  The half-widths add in quadrature: on valid counts, the square
    of the half-width of [diff_proportion_conf_interval] at confidence
    [1 - alpha] is the sum of the squares of the half-widths that
    [proportion_conf_interval] gives for the two groups at level
    [alpha]. *)
Theorem proportion_diff_interval_quadrature (ndtri : R -> R)
    (xA nA xB nB : Z) (alpha : R) :
  (0 <= xA <= nA)%Z -> (0 < nA)%Z -> (0 <= xB <= nB)%Z -> (0 < nB)%Z ->
  0 < alpha < 1 ->
  exists pA lowerA upperA pB lowerB upperB diff lower upper,
    proportion_conf_interval ndtri xA nA alpha
    = Ok (Num pA, Num lowerA, Num upperA)
    /\ proportion_conf_interval ndtri xB nB alpha
       = Ok (Num pB, Num lowerB, Num upperB)
    /\ diff_proportion_conf_interval ndtri [pA; pB] [nA; nB] (1 - alpha)
       = Ok (Num diff, Num lower, Num upper)
    /\ diff = pB - pA
    /\ Rsqr (upper - diff) = Rsqr (upperA - pA) + Rsqr (upperB - pB).
Proof.
  intros HxA HnA HxB HnB Ha.
  pose proof (proportion_in_unit _ _ HxA HnA) as HpA.
  pose proof (proportion_in_unit _ _ HxB HnB) as HpB.
  rewrite !proportion_conf_interval_valid by assumption.
  do 9 eexists. split; [reflexivity|]. split; [reflexivity|].
  rewrite diff_proportion_conf_interval_valid by (assumption || lra).
  split; [reflexivity|]. split; [reflexivity|].
  replace (1 - (1 - alpha)) with alpha by ring.
  pose proof (variance_term_nonneg _ _ HpA (IZR_lt _ _ HnA)) as HvA.
  pose proof (variance_term_nonneg _ _ HpB (IZR_lt _ _ HnB)) as HvB.
  assert (HA : prop_se (IZR xA / IZR nA) (IZR nA)
               * prop_se (IZR xA / IZR nA) (IZR nA)
               = IZR xA / IZR nA * (1 - IZR xA / IZR nA) / IZR nA).
  { unfold prop_se. apply sqrt_sqrt. assumption. }
  assert (HB : prop_se (IZR xB / IZR nB) (IZR nB)
               * prop_se (IZR xB / IZR nB) (IZR nB)
               = IZR xB / IZR nB * (1 - IZR xB / IZR nB) / IZR nB).
  { unfold prop_se. apply sqrt_sqrt. assumption. }
  assert (HD : diff_se (IZR xA / IZR nA) (IZR xB / IZR nB) (IZR nA) (IZR nB)
               * diff_se (IZR xA / IZR nA) (IZR xB / IZR nB) (IZR nA) (IZR nB)
               = IZR xA / IZR nA * (1 - IZR xA / IZR nA) / IZR nA
                 + IZR xB / IZR nB * (1 - IZR xB / IZR nB) / IZR nB).
  { unfold diff_se. apply sqrt_sqrt. lra. }
  assert (E : forall a z b, Rsqr (a + z * b - a) = z * z * (b * b)).
  { intros. unfold Rsqr. ring. }
  rewrite !E, HA, HB, HD. ring.
Qed.

Lemma proportion_diff_interval_quadrature_witness :
  exists pA lowerA upperA pB lowerB upperB diff lower upper,
    proportion_conf_interval uniform_quantile 30 100 (1 / 20)
    = Ok (Num pA, Num lowerA, Num upperA)
    /\ proportion_conf_interval uniform_quantile 80 200 (1 / 20)
       = Ok (Num pB, Num lowerB, Num upperB)
    /\ diff_proportion_conf_interval uniform_quantile
         [pA; pB] [100%Z; 200%Z] (1 - 1 / 20)
       = Ok (Num diff, Num lower, Num upper)
    /\ diff = pB - pA
    /\ Rsqr (upper - diff) = Rsqr (upperA - pA) + Rsqr (upperB - pB).
Proof.
  apply (proportion_diff_interval_quadrature uniform_quantile
           30 100 80 200 (1 / 20)).
  - lia.
  - lia.
  - lia.
  - lia.
  - lra.
Defined.

(** X14.  Against a baseline proportion of 0,
    [diff_proportion_conf_interval] at confidence [1 - alpha] returns the
    triple of [proportion_conf_interval] at level [alpha] for the second
    group, whenever the two sample sizes are not 0; this holds for every
    [alpha] and every count, valid or not. *)
Theorem proportion_diff_interval_zero_baseline (ndtri : R -> R)
    (x_success n_total nA : Z) (alpha : R) :
  nA <> 0%Z -> n_total <> 0%Z ->
  diff_proportion_conf_interval ndtri
    [0; IZR x_success / IZR n_total] [nA; n_total] (1 - alpha)
  = proportion_conf_interval ndtri x_success n_total alpha.
Proof.
  intros HA Hn.
  rewrite diff_proportion_conf_interval_eval by assumption.
  rewrite proportion_conf_interval_eval by assumption. cbv zeta.
  set (p := IZR x_success / IZR n_total).
  replace (p - 0) with p by ring.
  replace (0 * (1 - 0) / IZR nA + p * (1 - p) / IZR n_total)
    with (p * (1 - p) / IZR n_total) by (unfold Rdiv; ring).
  replace (1 - (1 - (1 - alpha)) / 2) with (1 - alpha / 2) by lra.
  reflexivity.
Qed.

Lemma proportion_diff_interval_zero_baseline_witness :
  diff_proportion_conf_interval uniform_quantile
    [0; IZR 30 / IZR 100] [50%Z; 100%Z] (1 - 1 / 20)
  = proportion_conf_interval uniform_quantile 30 100 (1 / 20).
Proof.
  apply (proportion_diff_interval_zero_baseline uniform_quantile
           30 100 50 (1 / 20)).
  - lia.
  - lia.
Defined.

(** ** The three functions: more confidence, wider interval *)

Lemma uniform_quantile_increasing : quantile_increasing uniform_quantile.
Proof. intros q1 q2 _ H _. unfold uniform_quantile. lra. Qed.

(** X15.  With increasing quantile functions, asking for more confidence
    never narrows the interval and leaves the point estimate alone: on a
    valid input, the interval at level [alpha2] lies within the interval
    at level [alpha1 <= alpha2] for [t_confidence_interval] (sample of at
    least two elements with a positive standard deviation) and for
    [proportion_conf_interval], and the interval at confidence [gamma2]
    lies within the one at [gamma1 >= gamma2] for
    [diff_proportion_conf_interval]. *)
Theorem interval_nested_in_confidence (ndtri : R -> R) (stdtrit : R -> R -> R) :
  quantile_increasing ndtri ->
  (forall df, 0 < df -> quantile_increasing (stdtrit df)) ->
  (forall data alpha1 alpha2,
      (2 <= length data)%nat -> 0 < sample_std data ->
      0 < alpha1 -> alpha1 <= alpha2 -> alpha2 < 1 ->
      interval_within (t_confidence_interval stdtrit data alpha2)
                      (t_confidence_interval stdtrit data alpha1))
  /\ (forall x_success n_total alpha1 alpha2,
         (0 <= x_success <= n_total)%Z -> (0 < n_total)%Z ->
         0 < alpha1 -> alpha1 <= alpha2 -> alpha2 < 1 ->
         interval_within
           (proportion_conf_interval ndtri x_success n_total alpha2)
           (proportion_conf_interval ndtri x_success n_total alpha1))
  /\ (forall pA pB nA nB gamma1 gamma2,
         0 <= pA <= 1 -> 0 <= pB <= 1 -> (0 < nA)%Z -> (0 < nB)%Z ->
         0 < gamma2 -> gamma2 <= gamma1 -> gamma1 < 1 ->
         interval_within
           (diff_proportion_conf_interval ndtri [pA; pB] [nA; nB] gamma2)
           (diff_proportion_conf_interval ndtri [pA; pB] [nA; nB] gamma1)).
Proof.
  intros Hz Ht. split; [|split].
  - intros data alpha1 alpha2 Hn Hs H1 H12 H2.
    rewrite !t_confidence_interval_regular by (assumption || lra).
    do 5 eexists. split; [reflexivity|]. split; [reflexivity|].
    assert (Hdf : 0 < INR (length data) - 1).
    { assert (1 < INR (length data)); [|lra].
      change 1 with (INR 1). apply lt_INR. lia. }
    assert (Hse : 0 < std_error data).
    { unfold std_error. apply Rdiv_lt_0_compat; [assumption|].
      apply sqrt_INR_pos. lia. }
    pose proof (Ht _ Hdf (alpha1 / 2) (alpha2 / 2)
                  ltac:(lra) ltac:(lra) ltac:(lra)) as Hlo.
    pose proof (Ht _ Hdf (1 - alpha2 / 2) (1 - alpha1 / 2)
                  ltac:(lra) ltac:(lra) ltac:(lra)) as Hup.
    split; nra.
  - intros x n alpha1 alpha2 Hx Hn H1 H12 H2.
    rewrite !proportion_conf_interval_valid by (assumption || lra).
    do 5 eexists. split; [reflexivity|]. split; [reflexivity|].
    pose proof (Hz (1 - alpha2 / 2) (1 - alpha1 / 2)
                  ltac:(lra) ltac:(lra) ltac:(lra)) as Hq.
    unfold z_crit, prop_se.
    pose proof (sqrt_pos (IZR x / IZR n * (1 - IZR x / IZR n) / IZR n)).
    split; nra.
  - intros pA pB nA nB gamma1 gamma2 HpA HpB HnA HnB H2 H21 H1.
    rewrite !diff_proportion_conf_interval_valid by (assumption || lra).
    do 5 eexists. split; [reflexivity|]. split; [reflexivity|].
    pose proof (Hz (1 - (1 - gamma2) / 2) (1 - (1 - gamma1) / 2)
                  ltac:(lra) ltac:(lra) ltac:(lra)) as Hq.
    unfold z_crit, diff_se.
    pose proof (sqrt_pos (pA * (1 - pA) / IZR nA + pB * (1 - pB) / IZR nB)).
    split; nra.
Qed.

Lemma interval_nested_in_confidence_witness :
  (forall data alpha1 alpha2,
      (2 <= length data)%nat -> 0 < sample_std data ->
      0 < alpha1 -> alpha1 <= alpha2 -> alpha2 < 1 ->
      interval_within (t_confidence_interval uniform_quantile_df data alpha2)
                      (t_confidence_interval uniform_quantile_df data alpha1))
  /\ (forall x_success n_total alpha1 alpha2,
         (0 <= x_success <= n_total)%Z -> (0 < n_total)%Z ->
         0 < alpha1 -> alpha1 <= alpha2 -> alpha2 < 1 ->
         interval_within
           (proportion_conf_interval uniform_quantile x_success n_total alpha2)
           (proportion_conf_interval uniform_quantile x_success n_total alpha1))
  /\ (forall pA pB nA nB gamma1 gamma2,
         0 <= pA <= 1 -> 0 <= pB <= 1 -> (0 < nA)%Z -> (0 < nB)%Z ->
         0 < gamma2 -> gamma2 <= gamma1 -> gamma1 < 1 ->
         interval_within
           (diff_proportion_conf_interval uniform_quantile
              [pA; pB] [nA; nB] gamma2)
           (diff_proportion_conf_interval uniform_quantile
              [pA; pB] [nA; nB] gamma1)).
Proof.
  apply (interval_nested_in_confidence uniform_quantile uniform_quantile_df).
  - exact uniform_quantile_increasing.
  - intros df _. exact uniform_quantile_increasing.
Defined.

(** ** When the bounds of the proportion intervals are numbers *)

Lemma np_sub_nan_r (a : float64) : np_sub a NaN = NaN.
Proof. destruct a; reflexivity. Qed.

(** X16.  For [n_total <> 0] and [alpha] in (0,1), the bounds returned by
    [proportion_conf_interval] are numbers exactly when the radicand
    [p (1 - p) / n_total] is non-negative, [p] being
    [x_success / n_total]; otherwise both are NaN.  Counts outside the
    documented range are not rejected: they show up as NaN bounds, or as
    numbers when the signs cancel. *)
Theorem proportion_interval_numeric_iff (ndtri : R -> R) (x_success n_total : Z)
    (alpha : R) :
  n_total <> 0%Z -> 0 < alpha < 1 ->
  let p := IZR x_success / IZR n_total in
  ((exists lower upper,
       proportion_conf_interval ndtri x_success n_total alpha
       = Ok (Num p, Num lower, Num upper))
   <-> 0 <= p * (1 - p) / IZR n_total)
  /\ (p * (1 - p) / IZR n_total < 0 ->
      proportion_conf_interval ndtri x_success n_total alpha
      = Ok (Num p, NaN, NaN)).
Proof.
  intros Hn Ha p.
  assert (Hnan : p * (1 - p) / IZR n_total < 0 ->
                 proportion_conf_interval ndtri x_success n_total alpha
                 = Ok (Num p, NaN, NaN)).
  { intros Hv. rewrite proportion_conf_interval_eval by assumption.
    cbv zeta. fold p. cbn [np_sqrt].
    rewrite Rltb_true by assumption.
    rewrite np_mul_nan_r, np_sub_nan_r, np_add_nan_r. reflexivity. }
  split; [split|exact Hnan].
  - intros (lower & upper & H).
    destruct (Rle_dec 0 (p * (1 - p) / IZR n_total)) as [|Hneg]; [assumption|].
    rewrite Hnan in H by lra. discriminate H.
  - intros Hv. rewrite proportion_conf_interval_eval by assumption.
    cbv zeta. fold p. rewrite norm_ppf_crit by assumption.
    cbn [np_sqrt]. rewrite Rltb_false by assumption.
    do 2 eexists. reflexivity.
Qed.

Lemma proportion_interval_numeric_iff_witness :
  ((exists lower upper,
       proportion_conf_interval uniform_quantile 5 3 (1 / 20)
       = Ok (Num (IZR 5 / IZR 3), Num lower, Num upper))
   <-> 0 <= IZR 5 / IZR 3 * (1 - IZR 5 / IZR 3) / IZR 3)
  /\ (IZR 5 / IZR 3 * (1 - IZR 5 / IZR 3) / IZR 3 < 0 ->
      proportion_conf_interval uniform_quantile 5 3 (1 / 20)
      = Ok (Num (IZR 5 / IZR 3), NaN, NaN)).
Proof.
  apply (proportion_interval_numeric_iff uniform_quantile 5 3 (1 / 20)).
  - lia.
  - lra.
Defined.

(** X17.  For sample sizes other than 0 and [gamma] in (0,1), the bounds
    returned by [diff_proportion_conf_interval] are numbers exactly when
    the radicand [pA (1 - pA) / nA + pB (1 - pB) / nB] is non-negative;
    otherwise both are NaN.  A proportion outside [0,1] or a negative
    sample size is not rejected, and can even be masked by the other
    group's term. *)
Theorem proportion_diff_interval_numeric_iff (ndtri : R -> R) (pA pB : R)
    (nA nB : Z) (gamma : R) :
  nA <> 0%Z -> nB <> 0%Z -> 0 < gamma < 1 ->
  let v := pA * (1 - pA) / IZR nA + pB * (1 - pB) / IZR nB in
  ((exists lower upper,
       diff_proportion_conf_interval ndtri [pA; pB] [nA; nB] gamma
       = Ok (Num (pB - pA), Num lower, Num upper))
   <-> 0 <= v)
  /\ (v < 0 ->
      diff_proportion_conf_interval ndtri [pA; pB] [nA; nB] gamma
      = Ok (Num (pB - pA), NaN, NaN)).
Proof.
  intros HA HB Hg v.
  assert (Hnan : v < 0 ->
                 diff_proportion_conf_interval ndtri [pA; pB] [nA; nB] gamma
                 = Ok (Num (pB - pA), NaN, NaN)).
  { intros Hv. rewrite diff_proportion_conf_interval_eval by assumption.
    cbv zeta. fold v. cbn [np_sqrt].
    rewrite Rltb_true by assumption.
    rewrite np_mul_nan_r, np_sub_nan_r, np_add_nan_r. reflexivity. }
  split; [split|exact Hnan].
  - intros (lower & upper & H).
    destruct (Rle_dec 0 v) as [|Hneg]; [assumption|].
    rewrite Hnan in H by lra. discriminate H.
  - intros Hv. rewrite diff_proportion_conf_interval_eval by assumption.
    cbv zeta. fold v. rewrite norm_ppf_crit by lra.
    cbn [np_sqrt]. rewrite Rltb_false by assumption.
    do 2 eexists. reflexivity.
Qed.

Lemma proportion_diff_interval_numeric_iff_witness :
  ((exists lower upper,
       diff_proportion_conf_interval uniform_quantile
         [3 / 2; 1 / 2] [10%Z; 2%Z] (95 / 100)
       = Ok (Num (1 / 2 - 3 / 2), Num lower, Num upper))
   <-> 0 <= 3 / 2 * (1 - 3 / 2) / IZR 10 + 1 / 2 * (1 - 1 / 2) / IZR 2)
  /\ (3 / 2 * (1 - 3 / 2) / IZR 10 + 1 / 2 * (1 - 1 / 2) / IZR 2 < 0 ->
      diff_proportion_conf_interval uniform_quantile
        [3 / 2; 1 / 2] [10%Z; 2%Z] (95 / 100)
      = Ok (Num (1 / 2 - 3 / 2), NaN, NaN)).
Proof.
  apply (proportion_diff_interval_numeric_iff uniform_quantile
           (3 / 2) (1 / 2) 10 2 (95 / 100)).
  - lia.
  - lia.
  - lra.
Defined.
